(** * Breadth-first and depth-first search of sd23061_lab1.py

    A shallow embedding of [breadth_first_search] and [depth_first_search]
    (src/sd23061_lab1.py, lines 19-148) and the properties of the traversal
    engine: levels, tie-breaking, paths, traces and termination.

    Python data is modelled as follows.
    - node identifiers are Python [str] values: [string], compared with
      [String.le] (lexicographic on character codes, as Python's [<=]);
    - the graph is a [dict] from node to list of nodes: [gmap string (list string)];
    - [visited] is a [set]: [gset string]; [parent_map] and [level] are
      dicts: [gmap]; a parent is [None] or a node: [option string];
    - the deque [queue] and the list [stack] are lists, left end first;
    - a raised exception and a loop that has not finished within the given
      number of turns are explicit outcomes. *)

From stdpp Require Import gmap strings list sorting.

Abbreviation node := string (only parsing).
Abbreviation graph := (gmap string (list string)) (only parsing).

(** ** Outcomes *)

Inductive exn := KeyError | UnboundLocalError.

Inductive outcome (A : Type) :=
  | Returned (a : A)
  | Raised (e : exn)
  | OutOfFuel.
Arguments Returned {A} a.
Arguments Raised {A} e.
Arguments OutOfFuel {A}.

(** Sequencing: an exception or an exhausted budget ends the computation. *)
Global Instance outcome_bind : MBind outcome := λ A B f m,
  match m with
  | Returned a => f a
  | Raised e => Raised e
  | OutOfFuel => OutOfFuel
  end.

(** [d[k]] on a dict: [KeyError] when the key is absent. *)
Definition getitem {V} (d : gmap string V) (k : node) : outcome V :=
  match d !! k with
  | Some v => Returned v
  | None => Raised KeyError
  end.

(** ** Data *)

(** [graph.get(n, [])]. *)
Definition graph_get (g : graph) (n : node) : list node := default [] (g !! n).

(** [sorted(l)] and [sorted(l, reverse=True)] on strings. *)
Definition sorted (l : list node) : list node := merge_sort String.le l.
Definition sorted_reverse (l : list node) : list node :=
  merge_sort (flip String.le) l.

(** One entry of [process_steps]. The key ['Frontier (Queue)'] of
    [breadth_first_search] and the key ['Frontier (Stack)'] of
    [depth_first_search] are both the field [Frontier]. *)
Record process_step := ProcessStep {
  Step : nat;
  Expansion : string;
  Level : nat;
  Frontier : list node;
  Visited : gset string
}.

(** The local variables of a search. [frontier] is the deque [queue] of
    [breadth_first_search] and the list [stack] of [depth_first_search];
    [current_node] is [None] while the variable is unbound. *)
Record locals := Locals {
  frontier : list node;
  visited : gset string;
  parent_map : gmap string (option string);
  process_steps : list process_step;
  level : gmap string nat;
  expansion_order : nat;
  current_node : option node
}.

(** The state both functions build before their loop (lines 24-40, 89-104). *)
Definition initial (start_node : node) : locals :=
  {| frontier := [start_node];
     visited := {[start_node]};
     parent_map := {[start_node := None]};
     process_steps :=
       [ {| Step := 0; Expansion := "Start"; Level := 0;
            Frontier := [start_node]; Visited := {[start_node]} |} ];
     level := {[start_node := 0]};
     expansion_order := 0;
     current_node := None |}.

(** ** The loop over the neighbours (lines 56-61 and 121-127)

    The two functions have the same [for] loop; [queue.append] and
    [stack.append] both add at the right end. [level[current_node]] is read
    each time a neighbour is discovered. *)
Fixpoint for_neighbors (current : node) (neighbors : list node) (st : locals)
    : outcome locals :=
  match neighbors with
  | [] => Returned st
  | neighbor :: rest =>
      if decide (neighbor ∈ visited st) then for_neighbors current rest st
      else
        lc ← getitem (level st) current;
        for_neighbors current rest
          {| frontier := frontier st ++ [neighbor];
             visited := {[neighbor]} ∪ visited st;
             parent_map := <[neighbor := Some current]> (parent_map st);
             process_steps := process_steps st;
             level := <[neighbor := lc + 1]> (level st);
             expansion_order := expansion_order st;
             current_node := current_node st |}
  end.

(** ** One turn of a [while] loop *)

(** How a turn ends: the body ran to its end ([Next]), it ran [break]
    ([Brk]), or the loop condition was false ([Stop]). *)
Inductive flow := Next | Brk | Stop.

(** [process_steps.append({...})] at the end of a body. *)
Definition record_step (current : node) (shown : list node) (st : locals)
    : outcome locals :=
  lc ← getitem (level st) current;
  Returned
    {| frontier := frontier st;
       visited := visited st;
       parent_map := parent_map st;
       process_steps := process_steps st ++
         [ {| Step := expansion_order st; Expansion := current; Level := lc;
              Frontier := shown; Visited := visited st |} ];
       level := level st;
       expansion_order := expansion_order st;
       current_node := current_node st |}.

(** The state after [current_node = ...pop...(); expansion_order += 1]. *)
Definition popped (current : node) (remaining : list node) (st : locals)
    : locals :=
  {| frontier := remaining;
     visited := visited st;
     parent_map := parent_map st;
     process_steps := process_steps st;
     level := level st;
     expansion_order := expansion_order st + 1;
     current_node := Some current |}.

(** Lines 42-70: the test [while queue] and one run of the body. *)
Definition bfs_turn (g : graph) (goal_node : node) (st : locals)
    : outcome (flow * locals) :=
  match frontier st with
  | [] => Returned (Stop, st)
  | current :: queue =>
      let st1 := popped current queue st in
      if decide (current = goal_node) then Returned (Brk, st1)
      else
        let neighbors := sorted (graph_get g current) in
        let new_frontier := queue in
        st2 ← for_neighbors current neighbors st1;
        st3 ← record_step current (new_frontier ++ sorted (frontier st2)) st2;
        Returned (Next, st3)
  end.

(** [stack.pop()] splits off the right end of the list. *)
Definition pop_right (l : list node) : option (node * list node) :=
  match reverse l with
  | [] => None
  | x :: r => Some (x, reverse r)
  end.

(** Lines 106-137: the test [while stack] and one run of the body;
    [stack[::-1]] is [reverse]. *)
Definition dfs_turn (g : graph) (goal_node : node) (st : locals)
    : outcome (flow * locals) :=
  match pop_right (frontier st) with
  | None => Returned (Stop, st)
  | Some (current, stack) =>
      let st1 := popped current stack st in
      if decide (current = goal_node) then Returned (Brk, st1)
      else
        let neighbors := sorted_reverse (graph_get g current) in
        st2 ← for_neighbors current neighbors st1;
        st3 ← record_step current (reverse (frontier st2)) st2;
        Returned (Next, st3)
  end.

(** ** Loops *)

Section Loop.
Variable turn : locals → outcome (flow * locals).

(** The [while] loop, given a number of turns it may take. *)
Fixpoint while (fuel : nat) (st : locals) : outcome locals :=
  match fuel with
  | 0 => OutOfFuel
  | S fuel' =>
      r ← turn st;
      match r with
      | (Next, st') => while fuel' st'
      | (_, st') => Returned st'
      end
  end.

(** The control flag and the variables after [k] turns: [None] when the
    loop ended before its [k]-th turn or a turn raised. *)
Fixpoint after (k : nat) (st : locals) : option (flow * locals) :=
  match k with
  | 0 => Some (Next, st)
  | S k' =>
      match after k' st with
      | Some (Next, st') =>
          match turn st' with
          | Returned r => Some r
          | _ => None
          end
      | _ => None
      end
  end.

(** The node taken from the frontier in the [k]-th turn (counted from 1):
    the value of [current_node] after that turn. *)
Definition expansion (st : locals) (k : nat) : option node :=
  match after k st with
  | Some (Next, st') | Some (Brk, st') => current_node st'
  | _ => None
  end.
End Loop.

(** Lines 76-78: [while curr is not None: path.append(curr);
    curr = parent_map.get(curr)]. *)
Fixpoint walk_parents (fuel : nat) (parent_map : gmap string (option string))
    (curr : option node) (path : list node) : outcome (list node) :=
  match curr with
  | None => Returned path
  | Some c =>
      match fuel with
      | 0 => OutOfFuel
      | S fuel' =>
          walk_parents fuel' parent_map (default None (parent_map !! c))
            (path ++ [c])
      end
  end.

(** Lines 72-81 and 139-148: path reconstruction and the returned triple. *)
Definition finish (fuel : nat) (goal_node : node) (st : locals)
    : outcome (list node * list process_step * gmap string nat) :=
  match current_node st with
  | None => Raised UnboundLocalError
  | Some c =>
      if decide (c = goal_node) then
        path ← walk_parents fuel (parent_map st) (Some goal_node) [];
        Returned (reverse path, process_steps st, level st)
      else Returned ([], process_steps st, level st)
  end.

(** ** The two searches *)

Definition bfs_loop (fuel : nat) (g : graph) (start_node goal_node : node)
    : outcome locals :=
  while (bfs_turn g goal_node) fuel (initial start_node).

Definition breadth_first_search (fuel : nat) (g : graph)
    (start_node goal_node : node)
    : outcome (list node * list process_step * gmap string nat) :=
  st ← bfs_loop fuel g start_node goal_node;
  finish fuel goal_node st.

Definition dfs_loop (fuel : nat) (g : graph) (start_node goal_node : node)
    : outcome locals :=
  while (dfs_turn g goal_node) fuel (initial start_node).

Definition depth_first_search (fuel : nat) (g : graph)
    (start_node goal_node : node)
    : outcome (list node * list process_step * gmap string nat) :=
  st ← dfs_loop fuel g start_node goal_node;
  finish fuel goal_node st.

(** [GRAPH], lines 6-15. *)
Definition GRAPH : gmap string (list string) :=
  list_to_map
    [ ("A", ["D"; "B"]);
      ("B", ["C"; "E"; "G"]);
      ("C", ["A"]);
      ("D", ["C"; "A"]);
      ("E", ["H"]);
      ("F", []);
      ("G", ["F"]);
      ("H", ["G"; "F"]) ].

(** ** Graph notions the properties are stated with *)

(** [v] is in the successor list of [u]. *)
Definition edge (g : graph) (u v : node) : Prop := v ∈ graph_get g u.

(** Every consecutive pair of [p] is an edge. *)
Definition is_path (g : graph) (p : list node) : Prop :=
  ∀ i u v, p !! i = Some u → p !! S i = Some v → edge g u v.

Definition path_from_to (g : graph) (s t : node) (p : list node) : Prop :=
  head p = Some s ∧ last p = Some t ∧ is_path g p.

Definition reachable (g : graph) (s t : node) : Prop :=
  ∃ p, path_from_to g s t p.

(** [d] is the least number of edges of a path from [s] to [t]. *)
Definition distance (g : graph) (s t : node) (d : nat) : Prop :=
  (∃ p, path_from_to g s t p ∧ length p = S d) ∧
  (∀ p, path_from_to g s t p → S d ≤ length p).

(** [t] is reached from [s] by a walk of exactly [n] edges. *)
Inductive reach_in (g : graph) (s : node) : nat → node → Prop :=
  | reach_here : reach_in g s 0 s
  | reach_edge n u v : reach_in g s n u → edge g u v → reach_in g s (S n) v.

(** [x] occurs to the left of [y] in [l]. *)
Definition before (x y : node) (l : list node) : Prop :=
  ∃ l1 l2 l3, l = l1 ++ x :: l2 ++ y :: l3.

(** ** What one turn does, for either frontier discipline *)

(** The effect of a turn that takes [cur] from the frontier, leaving
    [rest], and runs the body to its end: the nodes [new] are discovered,
    each once, and go to the right end of the frontier; one record, showing
    the frontier as [shown], is added to the trace. *)
Record expands (g : graph) (cur : node) (rest : list node) (lc : nat)
    (new shown : list node) (st st' : locals) : Prop := {
  exp_nodup : NoDup new;
  exp_new : ∀ x, x ∈ new ↔ edge g cur x ∧ x ∉ visited st;
  exp_frontier : frontier st' = rest ++ new;
  exp_visited : visited st' = list_to_set new ∪ visited st;
  exp_parent : ∀ x, parent_map st' !! x =
      if decide (x ∈ new) then Some (Some cur) else parent_map st !! x;
  exp_level : ∀ x, level st' !! x =
      if decide (x ∈ new) then Some (lc + 1) else level st !! x;
  exp_steps : process_steps st' = process_steps st ++
      [ {| Step := expansion_order st + 1; Expansion := cur; Level := lc;
           Frontier := shown; Visited := visited st' |} ];
  exp_order : expansion_order st' = expansion_order st + 1;
  exp_current : current_node st' = Some cur
}.

(** One turn of a search loop, whichever end of the frontier it takes
    [cur] from and in whichever order it walks the successors. *)
Inductive search_step (g : graph) (goal : node) (st : locals)
    : flow → locals → Prop :=
  | step_stop :
      frontier st = [] → search_step g goal st Stop st
  | step_brk rest :
      frontier st ≡ₚ goal :: rest →
      search_step g goal st Brk (popped goal rest st)
  | step_next cur rest lc new shown st' :
      frontier st ≡ₚ cur :: rest →
      cur ≠ goal →
      level st !! cur = Some lc →
      expands g cur rest lc new shown st st' →
      search_step g goal st Next st'.

(** ** The invariant of both loops, at the loop test *)

Record inv (g : graph) (start : node) (st : locals) : Prop := {
  inv_dom_parent : dom (parent_map st) = visited st;
  inv_dom_level : dom (level st) = visited st;
  inv_frontier : ∀ x, x ∈ frontier st → x ∈ visited st;
  inv_nodup : NoDup (frontier st);
  inv_start_parent : parent_map st !! start = Some None;
  inv_start_level : level st !! start = Some 0;
  inv_root : ∀ n, parent_map st !! n = Some None → n = start;
  inv_parent : ∀ n p, parent_map st !! n = Some (Some p) →
    edge g p n ∧
    ∃ lp, level st !! p = Some lp ∧ level st !! n = Some (lp + 1);
  inv_reach : ∀ v l, level st !! v = Some l → reach_in g start l v;
  inv_closed : ∀ v w,
    v ∈ visited st → v ∉ frontier st → edge g v w → w ∈ visited st;
  inv_trace_len : length (process_steps st) = S (expansion_order st);
  inv_trace_step : ∀ i r, process_steps st !! i = Some r → Step r = i;
  inv_trace_last : ∃ r,
    last (process_steps st) = Some r ∧ Visited r = visited st;
  inv_trace_mono : ∀ i r1 r2,
    process_steps st !! i = Some r1 → process_steps st !! S i = Some r2 →
    Visited r1 ⊆ Visited r2
}.

(** Every node the graph or the call mentions: the start node and all
    listed successors. *)
Definition nodes (g : graph) (start : node) : gset string :=
  {[start]} ∪ list_to_set (mjoin (snd <$> map_to_list g)).


(** ** The invariant of the breadth-first loop *)

(** The level of a discovered node. *)
Definition lv (st : locals) (x : node) : nat := default 0 (level st !! x).

(** The queue holds at most two consecutive levels, in order; levels are
    least walk lengths; every node as near as the head of the queue has
    been discovered. *)
Record bfs_inv (g : graph) (start : node) (st : locals) : Prop := {
  bfs_sorted : StronglySorted (λ x y, lv st x ≤ lv st y) (frontier st);
  bfs_range : ∀ h x,
    head (frontier st) = Some h → x ∈ frontier st → lv st x ≤ lv st h + 1;
  bfs_min : ∀ v l n,
    level st !! v = Some l → reach_in g start n v → l ≤ n;
  bfs_near : ∀ h n v,
    head (frontier st) = Some h → reach_in g start n v → n ≤ lv st h →
    v ∈ visited st
}.

(** ** The two strategies side by side *)

Inductive strategy := BFS | DFS.

Definition turn_of (s : strategy) : graph → node → locals → outcome (flow * locals) :=
  match s with BFS => bfs_turn | DFS => dfs_turn end.

Definition search (s : strategy) (fuel : nat) (g : graph) (start goal : node)
    : outcome (list node * list process_step * gmap string nat) :=
  match s with
  | BFS => breadth_first_search fuel g start goal
  | DFS => depth_first_search fuel g start goal
  end.

(** The call returns [r], within some number of turns. *)
Definition returns (s : strategy) (g : graph) (start goal : node)
    (r : list node * list process_step * gmap string nat) : Prop :=
  ∃ fuel, search s fuel g start goal = Returned r.

(** The variables after [k] turns of the loop of a call, and the node its
    [k]-th turn takes from the frontier. *)
Definition state_after (s : strategy) (g : graph) (start goal : node)
    (k : nat) : option (flow * locals) :=
  after (turn_of s g goal) k (initial start).

Definition expanded (s : strategy) (g : graph) (start goal : node)
    (k : nat) : option node :=
  expansion (turn_of s g goal) (initial start) k.

(** Taking [cur] from the frontier [l] leaves [rest]: the queue gives its
    left end, the stack its right end. *)
Definition takes (s : strategy) (l : list node) (cur : node)
    (rest : list node) : Prop :=
  match s with
  | BFS => l = cur :: rest
  | DFS => l = rest ++ [cur]
  end.

(** [x] will leave the frontier [l] before [y] does. *)
Definition ahead (s : strategy) (x y : node) (l : list node) : Prop :=
  match s with
  | BFS => before x y l
  | DFS => before y x l
  end.

(** The order in which a strategy walks the successors. *)
Definition walk_order (s : strategy) : relation string :=
  match s with
  | BFS => String.le
  | DFS => flip String.le
  end.

(** The frontier as a strategy writes it into the trace. *)
Definition shown_frontier (s : strategy) (rest new : list node) : list node :=
  match s with
  | BFS => rest ++ sorted (rest ++ new)
  | DFS => reverse (rest ++ new)
  end.

(** What a turn does to a state that satisfies [inv]. *)
Definition turn_does (s : strategy) (g : graph) (goal : node) (st : locals)
    (fl : flow) (st' : locals) : Prop :=
  match fl with
  | Stop => frontier st = [] ∧ st' = st
  | Brk => ∃ rest, takes s (frontier st) goal rest ∧ st' = popped goal rest st
  | Next => ∃ cur rest lc new,
      takes s (frontier st) cur rest ∧ cur ≠ goal ∧
      level st !! cur = Some lc ∧
      StronglySorted (walk_order s) new ∧
      expands g cur rest lc new (shown_frontier s rest new) st st'
  end.

(** The main loop of a search. *)
Definition loop (s : strategy) (fuel : nat) (g : graph) (start goal : node)
    : outcome locals :=
  match s with
  | BFS => bfs_loop fuel g start goal
  | DFS => dfs_loop fuel g start goal
  end.


(** ** What [main] shows for a search result (lines 177-181, 202-206)

    [if path: st.success(... ' -> '.join(path) ...);
     st.markdown(... level[goal_node] ...) else: st.error(...)]: the two
    values handed to the page when a path was found, or the error notice. *)
Inductive shown := PathFound (joined : string) (goal_level : nat) | PathNotFound.

Definition show_result (goal_node : node)
    (r : list node * list process_step * gmap string nat) : outcome shown :=
  let '(path, _, level) := r in
  match path with
  | [] => Returned PathNotFound
  | _ :: _ =>
      l ← getitem level goal_node;
      Returned (PathFound (String.concat " -> " path) l)
  end.


(** * Proofs *)

(** ** Sorting *)

Lemma elem_of_sorted x l : x ∈ sorted l ↔ x ∈ l.
Proof. unfold sorted. by rewrite merge_sort_Permutation. Qed.

Lemma elem_of_sorted_reverse x l : x ∈ sorted_reverse l ↔ x ∈ l.
Proof. unfold sorted_reverse. by rewrite merge_sort_Permutation. Qed.

Lemma sorted_ascending l : StronglySorted String.le (sorted l).
Proof. apply StronglySorted_merge_sort; apply _. Qed.

Lemma sorted_reverse_descending l :
  StronglySorted (flip String.le) (sorted_reverse l).
Proof.
  apply StronglySorted_merge_sort.
  - intros x y z Hxy Hyz. unfold flip in *. by etrans.
  - intros x y. unfold flip. destruct (total String.le x y); auto.
Qed.

(** ** The loop over the neighbours *)

Lemma for_neighbors_spec cur lc nbrs : ∀ st1,
  level st1 !! cur = Some lc →
  cur ∈ visited st1 →
  ∃ st2 new,
    for_neighbors cur nbrs st1 = Returned st2 ∧
    new `sublist_of` nbrs ∧
    NoDup new ∧
    (∀ x, x ∈ new ↔ x ∈ nbrs ∧ x ∉ visited st1) ∧
    frontier st2 = frontier st1 ++ new ∧
    visited st2 = list_to_set new ∪ visited st1 ∧
    (∀ x, parent_map st2 !! x =
       if decide (x ∈ new) then Some (Some cur) else parent_map st1 !! x) ∧
    (∀ x, level st2 !! x =
       if decide (x ∈ new) then Some (lc + 1) else level st1 !! x) ∧
    process_steps st2 = process_steps st1 ∧
    expansion_order st2 = expansion_order st1 ∧
    current_node st2 = current_node st1.
Proof.
  induction nbrs as [|n rest IH]; intros st1 Hlc Hcur; simpl.
  - exists st1, []. split_and!; try done.
    + constructor.
    + intros x. set_solver.
    + by rewrite app_nil_r.
    + set_solver.
  - destruct (decide (n ∈ visited st1)) as [Hn|Hn].
    + destruct (IH st1 Hlc Hcur) as (st2 & new & Hrun & Hsub & Hnd & Hnew & Hrest).
      exists st2, new. split_and!; try apply Hrest; try done.
      * by apply sublist_cons.
      * intros x. rewrite Hnew. set_solver.
    + unfold getitem. rewrite Hlc. simpl.
      set (st' := {| frontier := frontier st1 ++ [n] |}).
      assert (n ≠ cur) as Hne by (intros ->; done).
      destruct (IH st') as (st2 & new & Hrun & Hsub & Hnd & Hnew & Hfr & Hvis
        & Hpar & Hlev & Hps & Heo & Hcn).
      { simpl. by rewrite lookup_insert_ne. }
      { simpl. set_solver. }
      simpl in *.
      assert (n ∉ new) as Hnn by (rewrite Hnew; set_solver).
      exists st2, (n :: new). split_and!; try done.
      * by apply sublist_skip.
      * by constructor.
      * intros x. rewrite elem_of_cons, Hnew. clear -Hn.
        destruct (decide (x = n)) as [->|]; set_solver.
      * by rewrite Hfr, <- app_assoc.
      * rewrite Hvis. set_solver.
      * intros x. rewrite Hpar. destruct (decide (x = n)) as [->|Hx].
        -- rewrite decide_False by done. rewrite decide_True by set_solver.
           by rewrite lookup_insert_eq.
        -- rewrite lookup_insert_ne by done.
           destruct (decide (x ∈ new)); [rewrite decide_True|rewrite decide_False];
             set_solver.
      * intros x. rewrite Hlev. destruct (decide (x = n)) as [->|Hx].
        -- rewrite decide_False by done. rewrite decide_True by set_solver.
           by rewrite lookup_insert_eq.
        -- rewrite lookup_insert_ne by done.
           destruct (decide (x ∈ new)); [rewrite decide_True|rewrite decide_False];
             set_solver.
Qed.

(** ** The invariant *)

Lemma inv_initial g start : inv g start (initial start).
Proof.
  split; simpl.
  - by rewrite dom_singleton_L.
  - by rewrite dom_singleton_L.
  - set_solver.
  - apply NoDup_singleton.
  - by rewrite lookup_singleton_eq.
  - by rewrite lookup_singleton_eq.
  - intros n Hn. apply lookup_singleton_Some in Hn. by destruct Hn.
  - intros n p Hn. apply lookup_singleton_Some in Hn. by destruct Hn.
  - intros v l Hv. apply lookup_singleton_Some in Hv as [<- <-]. constructor.
  - intros v w Hv Hnv. set_solver.
  - done.
  - intros [|i] r Hr; simplify_eq/=; done.
  - eexists. split; [done|]. done.
  - intros [|i] r1 r2 H1 H2; simplify_eq/=.
Qed.

Lemma record_step_spec cur shown st lc :
  level st !! cur = Some lc →
  record_step cur shown st = Returned
    {| frontier := frontier st;
       visited := visited st;
       parent_map := parent_map st;
       process_steps := process_steps st ++
         [ {| Step := expansion_order st; Expansion := cur; Level := lc;
              Frontier := shown; Visited := visited st |} ];
       level := level st;
       expansion_order := expansion_order st;
       current_node := current_node st |}.
Proof. intros H. unfold record_step, getitem. by rewrite H. Qed.

Lemma inv_visited_level g start st x :
  inv g start st → x ∈ visited st → is_Some (level st !! x).
Proof. intros Hinv Hx. apply elem_of_dom. by rewrite (inv_dom_level _ _ _ Hinv). Qed.

Lemma inv_level_visited g start st x l :
  inv g start st → level st !! x = Some l → x ∈ visited st.
Proof.
  intros Hinv Hx. rewrite <- (inv_dom_level _ _ _ Hinv). apply elem_of_dom. eauto.
Qed.

(** ** Lists: sublists of sorted lists, the right end, occurrence order *)

Ltac list_assoc := repeat (rewrite <- app_assoc || rewrite <- app_comm_cons).

Lemma sublist_elem_of (l k : list string) x : l `sublist_of` k → x ∈ l → x ∈ k.
Proof. induction 1; set_solver. Qed.

Lemma StronglySorted_sublist (R : relation string) l k :
  l `sublist_of` k → StronglySorted R k → StronglySorted R l.
Proof.
  induction 1 as [|x l k Hsub IH|x l k Hsub IH]; intros Hk.
  - constructor.
  - apply StronglySorted_inv in Hk as [Hk Hall]. constructor; [auto|].
    rewrite Forall_forall in *. eauto using sublist_elem_of.
  - apply StronglySorted_inv in Hk as [Hk _]. auto.
Qed.

Lemma pop_right_None l : pop_right l = None ↔ l = [].
Proof.
  unfold pop_right. destruct (reverse l) eqn:E.
  - split; [|done]. intros _. by apply (inj reverse).
  - split; [done|]. intros ->. by rewrite reverse_nil in E.
Qed.

Lemma pop_right_Some l x r : pop_right l = Some (x, r) ↔ l = r ++ [x].
Proof.
  unfold pop_right. split.
  - destruct (reverse l) as [|y k] eqn:E; [done|]. intros [= -> <-].
    apply (inj reverse). by rewrite E, reverse_snoc, reverse_involutive.
  - intros ->. by rewrite reverse_snoc, reverse_involutive.
Qed.

Lemma before_app_l x y l k : before x y l → before x y (l ++ k).
Proof.
  intros (l1 & l2 & l3 & ->). exists l1, l2, (l3 ++ k). by list_assoc.
Qed.

Lemma before_app_r x y l k : before x y k → before x y (l ++ k).
Proof.
  intros (l1 & l2 & l3 & ->). exists (l ++ l1), l2, l3. by list_assoc.
Qed.

Lemma before_elem_of x y l : before x y l → x ∈ l ∧ y ∈ l.
Proof. intros (l1 & l2 & l3 & ->). set_solver. Qed.

Lemma before_sorted (R : relation string) x y l :
  StronglySorted R l → before x y l → R x y.
Proof.
  intros Hs (l1 & l2 & l3 & ->).
  apply StronglySorted_app_1_r in Hs.
  apply StronglySorted_inv in Hs as [_ Hall].
  rewrite Forall_forall in Hall. apply Hall. set_solver.
Qed.

Lemma before_total x y l : x ∈ l → y ∈ l → x ≠ y → before x y l ∨ before y x l.
Proof.
  intros Hx Hy Hne. apply list_elem_of_split in Hx as (l1 & l2 & ->).
  apply elem_of_app in Hy as [Hy|Hy].
  - right. apply list_elem_of_split in Hy as (k1 & k2 & ->).
    exists k1, k2, l2. by list_assoc.
  - left. apply elem_of_cons in Hy as [->|Hy]; [done|].
    apply list_elem_of_split in Hy as (k1 & k2 & ->). by exists l1, k1, k2.
Qed.

(** Dropping the left end keeps the order of the others. *)
Lemma before_tail x y h l : before x y (h :: l) → h ≠ x → before x y l.
Proof.
  intros (l1 & l2 & l3 & H) Hne. destruct l1 as [|h' l1]; simplify_eq/=.
  by exists l1, l2, l3.
Qed.

(** Dropping the right end keeps the order of the others. *)
Lemma before_init x y h l : before y x (l ++ [h]) → h ≠ x → before y x l.
Proof.
  intros (l1 & l2 & l3 & H) Hne.
  destruct (decide (l3 = [])) as [->|Hl3].
  - assert (l1 ++ y :: l2 ++ [x] = (l1 ++ y :: l2) ++ [x]) as E
      by (by list_assoc).
    rewrite E in H. apply app_inj_tail in H as [_ ?]. congruence.
  - destruct (exists_last Hl3) as (l3' & z & ->).
    assert (l1 ++ y :: l2 ++ x :: l3' ++ [z]
            = (l1 ++ y :: l2 ++ x :: l3') ++ [z]) as E by (by list_assoc).
    rewrite E in H. apply app_inj_tail in H as [-> _].
    by exists l1, l2, l3'.
Qed.

(** ** The invariant is kept by a turn *)

Lemma inv_next g start goal st st' :
  inv g start st → search_step g goal st Next st' → inv g start st'.
Proof.
  intros Hinv Hstep.
  inversion Hstep as [| |cur rest lc new shown st3 Hperm Hne Hlc Hexp]; subst.
  destruct Hexp as [Hnd Hnew Hfr Hvis Hpar Hlev Hps Heo Hcn].
  assert (cur ∈ visited st) as Hcurv by eauto using inv_level_visited.
  assert (cur ∉ new) as Hcn' by (rewrite Hnew; tauto).
  assert (∀ x, x ∈ rest → x ∈ visited st) as Hrestv.
  { intros x Hx. apply (inv_frontier _ _ _ Hinv). rewrite Hperm. set_solver. }
  assert (NoDup (cur :: rest)) as Hndf.
  { rewrite <- Hperm. apply (inv_nodup _ _ _ Hinv). }
  apply NoDup_cons in Hndf as [Hcr Hndr].
  assert (start ∉ new) as Hsn.
  { rewrite Hnew. intros [_ []].
    eapply inv_level_visited; [done|]. apply (inv_start_level _ _ _ Hinv). }
  split.
  - apply set_eq. intros x. rewrite elem_of_dom, Hpar, Hvis.
    rewrite elem_of_union, elem_of_list_to_set.
    rewrite <- (inv_dom_parent _ _ _ Hinv), elem_of_dom.
    case_decide; split; eauto. intros [|]; done.
  - apply set_eq. intros x. rewrite elem_of_dom, Hlev, Hvis.
    rewrite elem_of_union, elem_of_list_to_set.
    rewrite <- (inv_dom_level _ _ _ Hinv), elem_of_dom.
    case_decide; split; eauto. intros [|]; done.
  - intros x. rewrite Hfr, Hvis, elem_of_app. set_solver.
  - rewrite Hfr. apply NoDup_app. split_and!; [done| |done].
    intros x Hx. rewrite Hnew. intros [_ []]. auto.
  - rewrite Hpar, decide_False by done. apply (inv_start_parent _ _ _ Hinv).
  - rewrite Hlev, decide_False by done. apply (inv_start_level _ _ _ Hinv).
  - intros n. rewrite Hpar. case_decide; [done|]. apply (inv_root _ _ _ Hinv).
  - intros n p. rewrite Hpar. case_decide as Hn.
    + intros [= <-]. split; [by apply Hnew|].
      exists lc. rewrite !Hlev. rewrite decide_False, decide_True by done. done.
    + intros Hp. destruct (inv_parent _ _ _ Hinv n p Hp) as [He (lp & Hlp & Hln)].
      split; [done|]. exists lp. rewrite !Hlev.
      rewrite (decide_False (P := n ∈ new)) by done.
      rewrite decide_False; [done|].
      rewrite Hnew. intros [_ []]. eauto using inv_level_visited.
  - intros v l. rewrite Hlev. case_decide as Hv.
    + intros [= <-]. replace (lc + 1) with (S lc) by lia.
      econstructor; [by apply (inv_reach _ _ _ Hinv)|]. by apply Hnew.
    + apply (inv_reach _ _ _ Hinv).
  - intros v w. rewrite Hfr, Hvis, elem_of_app, !elem_of_union, !elem_of_list_to_set.
    intros Hv Hnf He. assert (v ∈ visited st) as Hvv by tauto.
    destruct (decide (w ∈ visited st)) as [|Hw]; [by right|].
    destruct (decide (v = cur)) as [->|Hvc].
    + left. apply Hnew. done.
    + exfalso. apply Hw. apply (inv_closed _ _ _ Hinv v w); try done.
      rewrite Hperm. set_solver.
  - rewrite Hps, length_app, Heo. simpl. rewrite (inv_trace_len _ _ _ Hinv). lia.
  - intros i r. rewrite Hps. intros Hi.
    apply lookup_app_Some in Hi as [Hi|[Hge Hi]].
    + by apply (inv_trace_step _ _ _ Hinv).
    + apply list_lookup_singleton_Some in Hi as [Hi <-]. simpl.
      rewrite (inv_trace_len _ _ _ Hinv) in *. lia.
  - eexists. rewrite Hps, last_snoc. split; [done|]. done.
  - intros i r1 r2. rewrite Hps. intros H1 H2.
    destruct (inv_trace_last _ _ _ Hinv) as (rl & Hlast & Hrl).
    apply lookup_app_Some in H2 as [H2|[Hge H2]].
    + rewrite lookup_app_l in H1 by (apply lookup_lt_Some in H2; lia).
      by apply (inv_trace_mono _ _ _ Hinv i).
    + apply list_lookup_singleton_Some in H2 as [Hi <-]. simpl.
      assert (i = pred (length (process_steps st))) as -> by lia.
      rewrite lookup_app_l in H1
        by (rewrite (inv_trace_len _ _ _ Hinv); simpl; lia).
      rewrite last_lookup in Hlast. rewrite Hlast in H1. simplify_eq.
      rewrite Hrl, Hvis. set_solver.
Qed.

(** ** The two turns are search steps *)

Lemma expands_of_loop g cur rest lc st nbrs shown :
  (∀ x, x ∈ nbrs ↔ x ∈ graph_get g cur) →
  level st !! cur = Some lc →
  cur ∈ visited st →
  ∃ st2 st' new,
    for_neighbors cur nbrs (popped cur rest st) = Returned st2 ∧
    record_step cur (shown st2) st2 = Returned st' ∧
    new `sublist_of` nbrs ∧
    frontier st2 = rest ++ new ∧
    expands g cur rest lc new (shown st2) st st'.
Proof.
  intros Hn Hlc Hcur.
  destruct (for_neighbors_spec cur lc nbrs (popped cur rest st) Hlc Hcur)
    as (st2 & new & Hrun & Hsub & Hnd & Hnew & Hfr & Hvis & Hpar & Hlev & Hps
        & Heo & Hcn).
  simpl in *.
  assert (level st2 !! cur = Some lc) as Hlc2.
  { rewrite Hlev. rewrite decide_False; [done|]. rewrite Hnew. tauto. }
  eexists st2, _, new. split_and!; [done|by apply record_step_spec|done..|].
  split; simpl; try done.
  - intros x. rewrite Hnew, Hn. done.
  - by rewrite Hps, Heo, Hvis.
Qed.

Lemma bfs_turn_next g start goal st cur queue :
  inv g start st → frontier st = cur :: queue → cur ≠ goal →
  ∃ lc new st',
    bfs_turn g goal st = Returned (Next, st') ∧
    level st !! cur = Some lc ∧
    StronglySorted String.le new ∧
    expands g cur queue lc new (queue ++ sorted (queue ++ new)) st st'.
Proof.
  intros Hinv Hfr Hne.
  assert (cur ∈ visited st) as Hcv.
  { apply (inv_frontier _ _ _ Hinv). rewrite Hfr. set_solver. }
  destruct (inv_visited_level _ _ _ _ Hinv Hcv) as [lc Hlc].
  destruct (expands_of_loop g cur queue lc st (sorted (graph_get g cur))
    (λ st2, queue ++ sorted (frontier st2)))
    as (st2 & st' & new & Hrun & Hrec & Hsub & Hfr2 & Hexp); try done.
  { intros x. apply elem_of_sorted. }
  exists lc, new, st'. split_and!; try done.
  - unfold bfs_turn. rewrite Hfr. rewrite decide_False by done.
    rewrite Hrun. simpl. by rewrite Hrec.
  - eapply StronglySorted_sublist; [done|]. apply sorted_ascending.
  - by rewrite <- Hfr2.
Qed.

Lemma bfs_turn_step g start goal st :
  inv g start st →
  ∃ fl st', bfs_turn g goal st = Returned (fl, st') ∧
            search_step g goal st fl st'.
Proof.
  intros Hinv. destruct (frontier st) as [|cur queue] eqn:Hfr.
  - exists Stop, st. unfold bfs_turn. rewrite Hfr. split; [done|]. by constructor.
  - destruct (decide (cur = goal)) as [->|Hne].
    + exists Brk, (popped goal queue st). unfold bfs_turn. rewrite Hfr.
      rewrite decide_True by done. split; [done|]. constructor. by rewrite Hfr.
    + destruct (bfs_turn_next g start goal st cur queue Hinv Hfr Hne)
        as (lc & new & st' & Hrun & Hlc & _ & Hexp).
      exists Next, st'. split; [done|].
      eapply step_next; try done. by rewrite Hfr.
Qed.

Lemma dfs_turn_next g start goal st cur stack :
  inv g start st → frontier st = stack ++ [cur] → cur ≠ goal →
  ∃ lc new st',
    dfs_turn g goal st = Returned (Next, st') ∧
    level st !! cur = Some lc ∧
    StronglySorted (flip String.le) new ∧
    expands g cur stack lc new (reverse (stack ++ new)) st st'.
Proof.
  intros Hinv Hfr Hne.
  assert (cur ∈ visited st) as Hcv.
  { apply (inv_frontier _ _ _ Hinv). rewrite Hfr. set_solver. }
  destruct (inv_visited_level _ _ _ _ Hinv Hcv) as [lc Hlc].
  destruct (expands_of_loop g cur stack lc st (sorted_reverse (graph_get g cur))
    (λ st2, reverse (frontier st2)))
    as (st2 & st' & new & Hrun & Hrec & Hsub & Hfr2 & Hexp); try done.
  { intros x. apply elem_of_sorted_reverse. }
  exists lc, new, st'. split_and!; try done.
  - unfold dfs_turn. apply pop_right_Some in Hfr. rewrite Hfr.
    rewrite decide_False by done.
    rewrite Hrun. simpl. by rewrite Hrec.
  - eapply StronglySorted_sublist; [done|]. apply sorted_reverse_descending.
  - by rewrite <- Hfr2.
Qed.

Lemma dfs_turn_step g start goal st :
  inv g start st →
  ∃ fl st', dfs_turn g goal st = Returned (fl, st') ∧
            search_step g goal st fl st'.
Proof.
  intros Hinv. destruct (pop_right (frontier st)) as [[cur stack]|] eqn:Hpop.
  - apply pop_right_Some in Hpop as Hfr.
    destruct (decide (cur = goal)) as [->|Hne].
    + exists Brk, (popped goal stack st). unfold dfs_turn. rewrite Hpop.
      rewrite decide_True by done. split; [done|]. constructor.
      rewrite Hfr. by rewrite Permutation_app_comm.
    + destruct (dfs_turn_next g start goal st cur stack Hinv Hfr Hne)
        as (lc & new & st' & Hrun & Hlc & _ & Hexp).
      exists Next, st'. split; [done|].
      eapply step_next; try done. rewrite Hfr. by rewrite Permutation_app_comm.
  - exists Stop, st. unfold dfs_turn. rewrite Hpop. split; [done|].
    constructor. by apply pop_right_None.
Qed.

(** ** Walks, paths and the node set *)

Lemma reach_in_nodes g start n v : reach_in g start n v → v ∈ nodes g start.
Proof.
  unfold nodes. destruct 1 as [|n u v _ He]; [set_solver|].
  unfold edge, graph_get in He. destruct (g !! u) as [l|] eqn:Hu; [|set_solver].
  apply elem_of_union_r, elem_of_list_to_set, list_elem_of_join.
  exists l. split; [done|]. apply list_elem_of_fmap.
  exists (u, l). split; [done|]. by apply elem_of_map_to_list.
Qed.

Lemma is_path_snoc g p u v :
  is_path g ((p ++ [u]) ++ [v]) ↔ is_path g (p ++ [u]) ∧ edge g u v.
Proof.
  unfold is_path. split.
  - intros H. split.
    + intros i a b Ha Hb. apply (H i).
      * by apply lookup_app_l_Some.
      * by apply lookup_app_l_Some.
    + apply (H (length p)).
      * rewrite lookup_app_l by (rewrite length_app; simpl; lia).
        by rewrite list_lookup_middle.
      * replace (S (length p)) with (length (p ++ [u]))
          by (rewrite length_app; simpl; lia).
        by rewrite list_lookup_middle.
  - intros [H He] i a b Ha Hb.
    apply lookup_app_Some in Hb as [Hb|[Hge Hb]].
    + apply (H i); [|done].
      rewrite lookup_app_l in Ha by (apply lookup_lt_Some in Hb; lia). done.
    + apply list_lookup_singleton_Some in Hb as [Hi <-].
      rewrite length_app in *. simpl in *.
      assert (i = length p) as -> by lia.
      rewrite lookup_app_l in Ha by (rewrite length_app; simpl; lia).
      rewrite list_lookup_middle in Ha by done. by simplify_eq.
Qed.

Lemma path_from_to_snoc g s u v p :
  path_from_to g s v ((p ++ [u]) ++ [v]) ↔
  path_from_to g s u (p ++ [u]) ∧ edge g u v.
Proof.
  unfold path_from_to. rewrite !last_snoc, is_path_snoc.
  assert (head ((p ++ [u]) ++ [v]) = head (p ++ [u])) as ->
    by (by destruct p).
  naive_solver.
Qed.

Lemma reach_in_path g s n v :
  reach_in g s n v ↔ ∃ p, path_from_to g s v p ∧ length p = S n.
Proof.
  split.
  - induction 1 as [|n u v _ (p & Hp & Hlen) He].
    + exists [s]. split; [|done]. by split_and!.
    + destruct Hp as (Hh & Hl & Hp). apply last_Some in Hl as [p' ->].
      exists ((p' ++ [u]) ++ [v]). split.
      * apply path_from_to_snoc. split; [|done]. split_and!; try done.
        by rewrite last_snoc.
      * rewrite !length_app in *. simpl in *. lia.
  - revert v. induction n as [|n IH]; intros v (p & Hp & Hlen).
    + destruct Hp as (Hh & Hl & Hp).
      destruct p as [|a [|b p]]; simplify_eq/=. constructor.
    + assert (∃ p' u, p = (p' ++ [u]) ++ [v]) as (p' & u & ->).
      { destruct Hp as (Hh & Hl & Hp). apply last_Some in Hl as [q ->].
        destruct q as [|u q _] using rev_ind.
        - simpl in Hlen. lia.
        - by exists q, u. }
      apply path_from_to_snoc in Hp as [Hp He].
      apply reach_edge with u; [|done]. apply IH. exists (p' ++ [u]).
      split; [done|]. rewrite !length_app in *. simpl in *. lia.
Qed.

Lemma reachable_reach_in g s v : reachable g s v ↔ ∃ n, reach_in g s n v.
Proof.
  split.
  - intros (p & Hp). destruct p as [|a p].
    { by destruct Hp as [? _]. }
    exists (length p). apply reach_in_path. by exists (a :: p).
  - intros (n & Hn). apply reach_in_path in Hn as (p & Hp & _). by exists p.
Qed.

Lemma distance_reach_in g s v d :
  distance g s v d ↔
  reach_in g s d v ∧ ∀ n, reach_in g s n v → d ≤ n.
Proof.
  unfold distance. rewrite <- reach_in_path. split.
  - intros [Hd Hmin]. split; [done|]. intros n Hn.
    apply reach_in_path in Hn as (p & Hp & Hlen). specialize (Hmin p Hp). lia.
  - intros [Hd Hmin]. split; [done|]. intros p Hp.
    destruct p as [|a p]. { by destruct Hp as [? _]. }
    simpl. apply le_n_S, Hmin, reach_in_path. by exists (a :: p).
Qed.

(** ** Loops in general *)

Lemma while_more turn fuel fuel' st st' :
  while turn fuel st = Returned st' → fuel ≤ fuel' →
  while turn fuel' st = Returned st'.
Proof.
  revert fuel' st. induction fuel as [|fuel IH]; intros fuel' st; [done|].
  intros Hrun Hle. destruct fuel' as [|fuel']; [lia|]. simpl in *.
  destruct (turn st) as [[[] st1]| |]; simpl in *; try done.
  apply IH; [done|lia].
Qed.

Lemma after_prev turn k st0 x :
  after turn (S k) st0 = Some x → ∃ st, after turn k st0 = Some (Next, st).
Proof. simpl. destruct (after turn k st0) as [[[] st]|]; try done. eauto. Qed.

Lemma after_earlier turn i j st0 x :
  after turn j st0 = Some x → i < j →
  ∃ st, after turn i st0 = Some (Next, st).
Proof.
  revert x. induction j as [|j IH]; intros x Hj Hlt; [lia|].
  destruct (after_prev _ _ _ _ Hj) as [st Hst].
  destruct (decide (i = j)) as [->|]; [eauto|]. eapply IH; [done|lia].
Qed.

Lemma while_after turn fuel : ∀ k st0 st st',
  after turn k st0 = Some (Next, st) →
  while turn fuel st = Returned st' →
  ∃ k' st1 fl,
    k ≤ k' ∧ after turn k' st0 = Some (Next, st1) ∧
    turn st1 = Returned (fl, st') ∧ fl ≠ Next.
Proof.
  induction fuel as [|fuel IH]; intros k st0 st st' Hk Hrun; [done|].
  simpl in Hrun. destruct (turn st) as [[fl st1]| |] eqn:Ht; simpl in *; try done.
  destruct fl.
  - destruct (IH (S k) st0 st1 st') as (k' & st2 & fl & Hle & ?); [|done|].
    { simpl. by rewrite Hk, Ht. }
    exists k', st2, fl. split; [lia|done].
  - simplify_eq. exists k, st, Brk. by split_and!.
  - simplify_eq. exists k, st, Stop. by split_and!.
Qed.

Lemma walk_parents_more fuel fuel' pm curr acc p :
  walk_parents fuel pm curr acc = Returned p → fuel ≤ fuel' →
  walk_parents fuel' pm curr acc = Returned p.
Proof.
  revert fuel' curr acc. induction fuel as [|fuel IH]; intros fuel' curr acc.
  - destruct curr; [done|]. by destruct fuel'.
  - destruct curr as [c|]; [|by destruct fuel'].
    intros Hrun Hle. destruct fuel' as [|fuel']; [lia|]. simpl in *.
    apply IH; [done|lia].
Qed.

Lemma search_more turn fuel fuel' start goal r :
  (st ← while turn fuel (initial start); finish fuel goal st) = Returned r →
  fuel ≤ fuel' →
  (st ← while turn fuel' (initial start); finish fuel' goal st) = Returned r.
Proof.
  intros Hrun Hle.
  destruct (while turn fuel (initial start)) as [st| |] eqn:Hloop; try done.
  rewrite (while_more _ _ _ _ _ Hloop Hle). simpl in *.
  unfold finish in *. destruct (current_node st); [|done].
  case_decide; [|done].
  destruct (walk_parents fuel (parent_map st) (Some goal) []) as [p| |] eqn:Hw;
    try done.
  by rewrite (walk_parents_more _ _ _ _ _ _ Hw Hle).
Qed.

(** With an empty frontier every reachable node has been discovered. *)
Lemma exhausted_all g start st v :
  inv g start st → frontier st = [] → reachable g start v → v ∈ visited st.
Proof.
  intros Hinv Hfr Hv. apply reachable_reach_in in Hv as [n Hn].
  induction Hn as [|n u v _ IH He].
  - eapply inv_level_visited; [done|]. apply (inv_start_level _ _ _ Hinv).
  - apply (inv_closed _ _ _ Hinv u v); try done. rewrite Hfr. set_solver.
Qed.

(** ** Any search whose turns are search steps *)

Section Search.
Variables (g : gmap string (list string)) (start goal : string).
Variable turn : locals → outcome (flow * locals).
Hypothesis turn_step : ∀ st, inv g start st →
  ∃ fl st', turn st = Returned (fl, st') ∧ search_step g goal st fl st'.

Lemma after_inv k st :
  after turn k (initial start) = Some (Next, st) → inv g start st.
Proof.
  revert st. induction k as [|k IH]; intros st; simpl.
  - intros [= <-]. apply inv_initial.
  - destruct (after turn k (initial start)) as [[[] st0]|]; try done.
    specialize (IH st0 eq_refl).
    destruct (turn_step st0 IH) as (fl & st' & Ht & Hstep). rewrite Ht.
    intros [= -> ->]. by eapply inv_next.
Qed.

Lemma after_step k fl st' :
  after turn (S k) (initial start) = Some (fl, st') →
  ∃ st, after turn k (initial start) = Some (Next, st) ∧ inv g start st ∧
        turn st = Returned (fl, st') ∧ search_step g goal st fl st'.
Proof.
  intros HS. destruct (after_prev _ _ _ _ HS) as [st Hst].
  assert (inv g start st) as Hinv by eauto using after_inv.
  exists st. split_and!; try done.
  - simpl in HS. rewrite Hst in HS. destruct (turn st); by simplify_eq.
  - destruct (turn_step st Hinv) as (fl' & st'' & Ht & Hstep).
    simpl in HS. rewrite Hst, Ht in HS. by simplify_eq.
Qed.

Lemma after_turn k st :
  after turn k (initial start) = Some (Next, st) →
  ∃ fl st', after turn (S k) (initial start) = Some (fl, st') ∧
            turn st = Returned (fl, st') ∧ search_step g goal st fl st'.
Proof.
  intros Hk. destruct (turn_step st) as (fl & st' & Ht & Hstep).
  { eauto using after_inv. }
  exists fl, st'. simpl. by rewrite Hk, Ht.
Qed.

(** The node a turn takes was in the frontier before that turn. *)
Lemma expansion_frontier k x :
  expansion turn (initial start) (S k) = Some x →
  ∃ st, after turn k (initial start) = Some (Next, st) ∧ x ∈ frontier st.
Proof.
  unfold expansion.
  destruct (after turn (S k) (initial start)) as [[fl st']|] eqn:HS; [|done].
  destruct (after_step _ _ _ HS) as (st & Hst & Hinv & Ht & Hstep).
  intros Hx. exists st. split; [done|].
  inversion Hstep as [|rest Hperm|cur rest lc new shown st3 Hperm Hne Hlc Hexp];
    subst; try done.
  - simpl in Hx. simplify_eq. rewrite Hperm. set_solver.
  - rewrite (exp_current _ _ _ _ _ _ _ _ Hexp) in Hx. simplify_eq.
    rewrite Hperm. set_solver.
Qed.

(** What is visited and out of the frontier stays so. *)
Lemma expands_done st st' cur rest lc new shown x :
  frontier st ≡ₚ cur :: rest →
  expands g cur rest lc new shown st st' →
  x ∈ visited st → x ∉ rest →
  x ∈ visited st' ∧ x ∉ frontier st'.
Proof.
  intros Hperm [Hnd Hnew Hfr Hvis Hpar Hlev Hps Heo Hcn] Hv Hr.
  rewrite Hfr, Hvis, elem_of_app, elem_of_union. split; [by right|].
  rewrite Hnew. tauto.
Qed.

Lemma expands_cur_rest st cur rest :
  inv g start st → frontier st ≡ₚ cur :: rest →
  cur ∈ visited st ∧ cur ∉ rest ∧ ∀ x, x ∉ frontier st → x ∉ rest.
Proof.
  intros Hinv Hperm.
  assert (NoDup (cur :: rest)) as Hndf.
  { rewrite <- Hperm. apply (inv_nodup _ _ _ Hinv). }
  apply NoDup_cons in Hndf as [Hcr Hndr]. split_and!; [|done|].
  - apply (inv_frontier _ _ _ Hinv). rewrite Hperm. set_solver.
  - intros x Hx Hr. apply Hx. rewrite Hperm. set_solver.
Qed.

(** A node taken in an earlier turn is visited and out of the frontier. *)
Lemma expansion_done k : ∀ st i x,
  after turn k (initial start) = Some (Next, st) →
  expansion turn (initial start) i = Some x → i ≤ k →
  x ∈ visited st ∧ x ∉ frontier st.
Proof.
  induction k as [|k IH]; intros st' i x Hk Hi Hle.
  - assert (i = 0) as -> by lia. done.
  - destruct (after_step _ _ _ Hk) as (st & Hst & Hinv & Ht & Hstep).
    inversion Hstep as [| |cur rest lc new shown st3 Hperm Hne Hlc Hexp]; subst.
    destruct (expands_cur_rest st cur rest Hinv Hperm) as (Hcv & Hcr & Hrest).
    destruct (decide (i = S k)) as [->|Hne'].
    + unfold expansion in Hi. rewrite Hk in Hi.
      rewrite (exp_current _ _ _ _ _ _ _ _ Hexp) in Hi. simplify_eq.
      by eapply expands_done.
    + destruct (IH st i x Hst Hi) as [Hxv Hxf]; [lia|].
      eapply expands_done; eauto.
Qed.

Lemma expansion_inj i j x :
  expansion turn (initial start) i = Some x →
  expansion turn (initial start) j = Some x → i = j.
Proof.
  assert (∀ i j, i < j →
    expansion turn (initial start) i = Some x →
    expansion turn (initial start) j = Some x → False) as H.
  { clear i j. intros i j Hlt Hi Hj. destruct j as [|j]; [lia|].
    destruct (expansion_frontier _ _ Hj) as (st & Hst & Hx).
    destruct (expansion_done j st i x Hst Hi) as [_ []]; [lia|done]. }
  intros Hi Hj. destruct (lt_eq_lt_dec i j) as [[Hlt|]|Hlt]; [|done|];
    exfalso; eauto.
Qed.

Lemma visited_reachable st x :
  inv g start st → x ∈ visited st → reachable g start x.
Proof.
  intros Hinv Hx. destruct (inv_visited_level _ _ _ _ Hinv Hx) as [l Hl].
  apply reachable_reach_in. exists l. by apply (inv_reach _ _ _ Hinv).
Qed.

(** The nodes taken in the first [k] turns are [k] different visited nodes. *)
Lemma expanded_list k st :
  after turn k (initial start) = Some (Next, st) →
  expansion_order st = k ∧
  ∃ l, length l = k ∧ NoDup l ∧
       ∀ x, x ∈ l → x ∈ visited st ∧ x ∉ frontier st.
Proof.
  revert st. induction k as [|k IH]; intros st' Hk.
  - simpl in Hk. simplify_eq. split; [done|]. exists []. split_and!; try done.
    + constructor.
    + set_solver.
  - destruct (after_step _ _ _ Hk) as (st & Hst & Hinv & Ht & Hstep).
    destruct (IH st Hst) as (Heo' & l & Hlen & Hnd' & Hl).
    inversion Hstep as [| |cur rest lc new shown st3 Hperm Hne Hlc Hexp]; subst.
    destruct (expands_cur_rest st cur rest Hinv Hperm) as (Hcv & Hcr & Hrest).
    split. { rewrite (exp_order _ _ _ _ _ _ _ _ Hexp). lia. }
    exists (l ++ [cur]). split_and!.
    + rewrite length_app. simpl. lia.
    + apply NoDup_app. split_and!; [done| |apply NoDup_singleton].
      intros x Hx. rewrite list_elem_of_singleton. intros ->.
      destruct (Hl cur Hx) as [_ []]. rewrite Hperm. set_solver.
    + intros x Hx. apply elem_of_app in Hx as [Hx|Hx].
      * destruct (Hl x Hx) as [Hv Hf]. eapply expands_done; eauto.
      * apply list_elem_of_singleton in Hx as ->. by eapply expands_done.
Qed.

(** The goal, once discovered, waits in the frontier: the turn that takes
    it is a [break]. *)
Lemma goal_waits k st :
  after turn k (initial start) = Some (Next, st) →
  goal ∈ visited st → goal ∈ frontier st.
Proof.
  revert st. induction k as [|k IH]; intros st' Hk.
  - simpl in Hk. simplify_eq. simpl. set_solver.
  - destruct (after_step _ _ _ Hk) as (st & Hst & Hinv & Ht & Hstep).
    inversion Hstep as [| |cur rest lc new shown st3 Hperm Hne Hlc Hexp]; subst.
    rewrite (exp_visited _ _ _ _ _ _ _ _ Hexp), (exp_frontier _ _ _ _ _ _ _ _ Hexp).
    rewrite elem_of_union, elem_of_list_to_set, elem_of_app.
    intros [?|Hg]; [by right|]. left. specialize (IH st Hst Hg).
    rewrite Hperm in IH. set_solver.
Qed.

(** The trace has the record of turn [i] at index [i]. *)
Lemma trace_expansion k : ∀ st i r,
  after turn k (initial start) = Some (Next, st) →
  process_steps st !! S i = Some r →
  expansion turn (initial start) (S i) = Some (Expansion r).
Proof.
  induction k as [|k IH]; intros st' i r Hk Hr.
  - simpl in Hk. by simplify_eq.
  - destruct (after_step _ _ _ Hk) as (st & Hst & Hinv & Ht & Hstep).
    inversion Hstep as [| |cur rest lc new shown st3 Hperm Hne Hlc Hexp]; subst.
    rewrite (exp_steps _ _ _ _ _ _ _ _ Hexp) in Hr.
    apply lookup_app_Some in Hr as [Hr|[Hge Hr]]; [by eapply IH|].
    apply list_lookup_singleton_Some in Hr as [Hi <-]. simpl.
    rewrite (inv_trace_len _ _ _ Hinv) in *.
    destruct (expanded_list k st Hst) as [Heo _].
    assert (i = k) as -> by lia.
    unfold expansion. rewrite Hk. apply (exp_current _ _ _ _ _ _ _ _ Hexp).
Qed.

(** *** Termination *)

Lemma turns_bounded k st :
  after turn k (initial start) = Some (Next, st) → k ≤ size (nodes g start).
Proof.
  intros Hk. assert (inv g start st) as Hinv by eauto using after_inv.
  destruct (expanded_list k st Hk) as (_ & l & <- & Hnd & Hl).
  rewrite <- (size_list_to_set (C := gset string) l Hnd).
  apply subseteq_size. intros x Hx. apply elem_of_list_to_set in Hx.
  destruct (Hl x Hx) as [Hv _].
  destruct (inv_visited_level _ _ _ _ Hinv Hv) as [n Hn].
  eapply reach_in_nodes. by apply (inv_reach _ _ _ Hinv).
Qed.

Lemma while_runs m : ∀ k st,
  after turn k (initial start) = Some (Next, st) →
  size (nodes g start) - k ≤ m →
  ∃ st', while turn (S m) st = Returned st'.
Proof.
  induction m as [|m IH]; intros k st Hk Hm;
    destruct (after_turn k st Hk) as (fl & st' & HS & Ht & Hstep);
    simpl; rewrite Ht; simpl; destruct fl; eauto.
  - apply turns_bounded in HS. apply turns_bounded in Hk. lia.
  - apply (IH (S k)); [done|lia].
Qed.

Lemma loop_terminates :
  ∃ st', while turn (S (size (nodes g start))) (initial start) = Returned st'.
Proof. apply (while_runs _ 0); [done|lia]. Qed.

(** *** The state the loop ends in *)

Lemma loop_final fuel st' :
  while turn fuel (initial start) = Returned st' →
  ∃ k st,
    after turn k (initial start) = Some (Next, st) ∧ inv g start st ∧
    ((frontier st = [] ∧ st' = st ∧
      after turn (S k) (initial start) = Some (Stop, st)) ∨
     (∃ rest, frontier st ≡ₚ goal :: rest ∧ st' = popped goal rest st ∧
      after turn (S k) (initial start) = Some (Brk, st'))).
Proof.
  intros Hrun.
  destruct (while_after turn fuel 0 (initial start) (initial start) st')
    as (k & st & fl & _ & Hk & Ht & Hfl); [done..|].
  assert (inv g start st) as Hinv by eauto using after_inv.
  exists k, st. split_and!; try done.
  destruct (after_turn k st Hk) as (fl' & st'' & HS & Ht' & Hstep).
  rewrite Ht in Ht'. simplify_eq.
  inversion Hstep; subst; try done.
  - by left.
  - right. eauto.
Qed.

(** *** Path reconstruction *)

Lemma walk_parents_spec st :
  inv g start st → ∀ l v acc fuel,
  level st !! v = Some l → l < fuel →
  ∃ p, walk_parents fuel (parent_map st) (Some v) acc = Returned (acc ++ p) ∧
       length p = S l ∧ path_from_to g start v (reverse p).
Proof.
  intros Hinv l. induction l as [l IH] using lt_wf_ind.
  intros v acc fuel Hl Hfuel. destruct fuel as [|fuel]; [lia|]. simpl.
  assert (is_Some (parent_map st !! v)) as [o Ho].
  { apply elem_of_dom. rewrite (inv_dom_parent _ _ _ Hinv).
    by eapply inv_level_visited. }
  rewrite Ho. simpl. destruct o as [u|].
  - destruct (inv_parent _ _ _ Hinv v u Ho) as (He & lu & Hlu & Hlv).
    assert (l = lu + 1) as -> by congruence.
    destruct (IH lu ltac:(lia) u (acc ++ [v]) fuel Hlu ltac:(lia))
      as (p & Hrun & Hlen & Hp).
    exists (v :: p). split_and!.
    + rewrite Hrun. by list_assoc.
    + simpl. lia.
    + rewrite reverse_cons. destruct Hp as (Hh & Hla & Hp).
      apply last_Some in Hla as Hq. destruct Hq as [q Hq]. rewrite Hq.
      apply path_from_to_snoc. split; [|done]. rewrite <- Hq. by split_and!.
  - apply (inv_root _ _ _ Hinv) in Ho as ->.
    assert (l = 0) as -> by (pose proof (inv_start_level _ _ _ Hinv); congruence).
    exists [start]. split_and!; try done. by destruct fuel.
Qed.

(** *** What a search returns *)

Lemma search_result fuel path steps lvl :
  (st ← while turn fuel (initial start); finish fuel goal st)
    = Returned (path, steps, lvl) →
  ∃ k st,
    after turn k (initial start) = Some (Next, st) ∧ inv g start st ∧
    steps = process_steps st ∧ lvl = level st ∧
    ((frontier st = [] ∧ path = [] ∧
      after turn (S k) (initial start) = Some (Stop, st)) ∨
     (goal ∈ frontier st ∧ path_from_to g start goal path ∧
      level st !! goal = Some (pred (length path)) ∧
      ∃ st', after turn (S k) (initial start) = Some (Brk, st'))).
Proof.
  destruct (while turn fuel (initial start)) as [st'| |] eqn:Hrun; try done.
  simpl. intros Hfin.
  destruct (loop_final _ _ Hrun) as (k & st & Hk & Hinv & Hcase).
  exists k, st.
  destruct Hcase as [(Hfr & -> & HS)|(rest & Hperm & -> & HS)].
  - destruct k as [|k]; [simpl in Hk; by simplify_eq|].
    destruct (after_step _ _ _ Hk) as (st0 & Hst0 & Hinv0 & Ht0 & Hstep0).
    inversion Hstep0 as [| |cur rest lc new shown st3 Hperm Hne Hlc Hexp]; subst.
    unfold finish in Hfin. rewrite (exp_current _ _ _ _ _ _ _ _ Hexp) in Hfin.
    rewrite decide_False in Hfin by done. simplify_eq.
    split_and!; try done. left. done.
  - unfold finish in Hfin. simpl in Hfin. rewrite decide_True in Hfin by done.
    assert (goal ∈ frontier st) as Hgf by (rewrite Hperm; set_solver).
    assert (goal ∈ visited st) as Hgv by by apply (inv_frontier _ _ _ Hinv).
    destruct (inv_visited_level _ _ _ _ Hinv Hgv) as [l Hl].
    destruct (walk_parents fuel (parent_map st) (Some goal) []) as [p| |] eqn:Hw;
      simpl in Hfin; try done. simplify_eq.
    split_and!; try done. right.
    destruct (walk_parents_spec st Hinv l goal [] (fuel + S l) Hl ltac:(lia))
      as (p' & Hw' & Hlen & Hp).
    assert (p' = p) as ->.
    { apply (walk_parents_more _ (fuel + S l)) in Hw; [|lia].
      rewrite Hw in Hw'. by simplify_eq. }
    split_and!; try done.
    + rewrite length_reverse, Hlen. done.
    + eauto.
Qed.

(** A search returns within some number of turns, and more turns do not
    change what it returns. *)
Lemma search_terminates :
  ∃ fuel r,
    (st ← while turn fuel (initial start); finish fuel goal st) = Returned r.
Proof.
  destruct loop_terminates as [st' Hrun].
  destruct (loop_final _ _ Hrun) as (k & st & Hk & Hinv & Hcase).
  destruct Hcase as [(Hfr & -> & HS)|(rest & Hperm & -> & HS)].
  - eexists _, _. rewrite Hrun. simpl.
    destruct k as [|k]; [simpl in Hk; by simplify_eq|].
    destruct (after_step _ _ _ Hk) as (st0 & Hst0 & Hinv0 & Ht0 & Hstep0).
    inversion Hstep0 as [| |cur rest lc new shown st3 Hperm Hne Hlc Hexp]; subst.
    unfold finish. rewrite (exp_current _ _ _ _ _ _ _ _ Hexp).
    by rewrite decide_False by done.
  - assert (goal ∈ visited st) as Hgv.
    { apply (inv_frontier _ _ _ Hinv). rewrite Hperm. set_solver. }
    destruct (inv_visited_level _ _ _ _ Hinv Hgv) as [l Hl].
    remember (S (size (nodes g start)) + S l) as fuel eqn:Hfuel.
    exists fuel.
    rewrite (while_more _ _ fuel _ _ Hrun) by lia. simpl.
    unfold finish. simpl. rewrite decide_True by done.
    destruct (walk_parents_spec st Hinv l goal [] fuel Hl ltac:(lia))
      as (p & Hw & _).
    rewrite Hw. simpl. eauto.
Qed.

End Search.


(** ** The turns of the two searches, case by case *)

Lemma turn_of_step s g start goal st :
  inv g start st →
  ∃ fl st', turn_of s g goal st = Returned (fl, st') ∧
            search_step g goal st fl st'.
Proof. destruct s; [apply bfs_turn_step|apply dfs_turn_step]. Qed.

Lemma turn_cases s g start goal st fl st' :
  inv g start st → turn_of s g goal st = Returned (fl, st') →
  turn_does s g goal st fl st'.
Proof.
  intros Hinv Ht. destruct s; simpl in Ht.
  - destruct (frontier st) as [|cur queue] eqn:Hfr.
    { unfold bfs_turn in Ht. rewrite Hfr in Ht. by simplify_eq. }
    destruct (decide (cur = goal)) as [->|Hne].
    + unfold bfs_turn in Ht. rewrite Hfr, decide_True in Ht by done.
      simplify_eq. by exists queue.
    + destruct (bfs_turn_next g start goal st cur queue Hinv Hfr Hne)
        as (lc & new & st'' & Hrun & Hlc & Hs & Hexp).
      rewrite Hrun in Ht. simplify_eq. by exists cur, queue, lc, new.
  - destruct (pop_right (frontier st)) as [[cur stack]|] eqn:Hpop.
    + apply pop_right_Some in Hpop as Hfr.
      destruct (decide (cur = goal)) as [->|Hne].
      * unfold dfs_turn in Ht. rewrite Hpop, decide_True in Ht by done.
        simplify_eq. by exists stack.
      * destruct (dfs_turn_next g start goal st cur stack Hinv Hfr Hne)
          as (lc & new & st'' & Hrun & Hlc & Hs & Hexp).
        rewrite Hrun in Ht. simplify_eq. by exists cur, stack, lc, new.
    + unfold dfs_turn in Ht. rewrite Hpop in Ht. simplify_eq.
      split; [|done]. by apply pop_right_None.
Qed.

Lemma state_after_step s g start goal k fl st' :
  state_after s g start goal (S k) = Some (fl, st') →
  ∃ st, state_after s g start goal k = Some (Next, st) ∧
        inv g start st ∧ turn_does s g goal st fl st'.
Proof.
  intros HS.
  destruct (after_step g start goal _ (turn_of_step s g start goal) _ _ _ HS)
    as (st & Hst & Hinv & Ht & _).
  exists st. eauto using turn_cases.
Qed.

Lemma state_after_inv s g start goal k st :
  state_after s g start goal k = Some (Next, st) → inv g start st.
Proof. apply after_inv with goal. apply turn_of_step. Qed.

Lemma state_after_turn s g start goal k st :
  state_after s g start goal k = Some (Next, st) →
  ∃ fl st', state_after s g start goal (S k) = Some (fl, st') ∧
            turn_does s g goal st fl st'.
Proof.
  intros Hk.
  destruct (after_turn g start goal _ (turn_of_step s g start goal) _ _ Hk)
    as (fl & st' & HS & Ht & _).
  exists fl, st'. split; [done|].
  eapply turn_cases; [|done]. by eapply state_after_inv.
Qed.

(** ** Breadth-first levels are distances *)

Lemma StronglySorted_impl (R R' : relation string) l :
  (∀ x y, x ∈ l → y ∈ l → R x y → R' x y) →
  StronglySorted R l → StronglySorted R' l.
Proof.
  induction l as [|a l IH]; intros HR Hs; [constructor|].
  apply StronglySorted_inv in Hs as [Hs Hall]. constructor.
  - apply IH; [|done]. intros x y ? ?. apply HR; set_solver.
  - rewrite Forall_forall in *. intros x Hx. apply HR; [set_solver..|auto].
Qed.

Lemma StronglySorted_const (R : relation string) l :
  (∀ x y, x ∈ l → y ∈ l → R x y) → StronglySorted R l.
Proof.
  induction l as [|a l IH]; intros HR; constructor.
  - apply IH. intros x y ? ?. apply HR; set_solver.
  - rewrite Forall_forall. intros x Hx. apply HR; set_solver.
Qed.

Lemma StronglySorted_head (R : relation string) `{!Reflexive R} l h x :
  StronglySorted R l → head l = Some h → x ∈ l → R h x.
Proof.
  intros Hs Hh Hx. destruct l as [|a l]; simplify_eq/=.
  apply StronglySorted_inv in Hs as [_ Hall]. rewrite Forall_forall in Hall.
  apply elem_of_cons in Hx as [->|Hx]; [done|auto].
Qed.

Lemma bfs_inv_initial g start : bfs_inv g start (initial start).
Proof.
  split; simpl.
  - repeat constructor.
  - intros h x [= <-] Hx. apply list_elem_of_singleton in Hx as ->. lia.
  - intros v l n Hv _. apply lookup_singleton_Some in Hv as [_ <-]. lia.
  - intros h n v [= <-]. unfold lv. simpl. rewrite lookup_singleton_eq. simpl.
    intros Hn Hle. assert (n = 0) as -> by lia. inversion Hn. set_solver.
Qed.

Lemma bfs_inv_next g start st st' cur queue lc new shown :
  inv g start st → inv g start st' → bfs_inv g start st →
  frontier st = cur :: queue → level st !! cur = Some lc →
  expands g cur queue lc new shown st st' →
  bfs_inv g start st'.
Proof.
  intros Hinv Hinv' Hb Hfr Hlc [Hnd Hnew Hfr' Hvis Hpar Hlev Hps Heo Hcn].
  assert (lv st cur = lc) as Hlvc by (unfold lv; by rewrite Hlc).
  assert (∀ x, x ∈ visited st → lv st' x = lv st x) as Hold.
  { intros x Hx. unfold lv. rewrite Hlev, decide_False; [done|].
    rewrite Hnew. tauto. }
  assert (∀ x, x ∈ new → lv st' x = lc + 1) as Hnewlv.
  { intros x Hx. unfold lv. by rewrite Hlev, decide_True. }
  assert (∀ x, x ∈ queue → x ∈ visited st) as Hqv.
  { intros x Hx. apply (inv_frontier _ _ _ Hinv). rewrite Hfr. set_solver. }
  pose proof (bfs_sorted _ _ _ Hb) as Hs. rewrite Hfr in Hs.
  apply StronglySorted_inv in Hs as [Hsq Hall]. rewrite Forall_forall in Hall.
  assert (∀ x, x ∈ queue → lc ≤ lv st' x ≤ lc + 1) as Hql.
  { intros x Hx. rewrite Hold by auto. split.
    - rewrite <- Hlvc. auto.
    - rewrite <- Hlvc. apply (bfs_range _ _ _ Hb); rewrite Hfr; [done|set_solver]. }
  assert (StronglySorted (λ x y, lv st' x ≤ lv st' y) (queue ++ new)) as Hs'.
  { apply StronglySorted_app_2.
    - intros x y Hx Hy. rewrite (Hnewlv y) by done. by apply Hql.
    - eapply StronglySorted_impl; [|done]. intros x y Hx Hy. simpl.
      by rewrite !Hold by auto.
    - apply StronglySorted_const. intros x y Hx Hy. rewrite !Hnewlv by done. lia. }
  assert (∀ h, head (queue ++ new) = Some h → lc ≤ lv st' h ≤ lc + 1) as Hh.
  { intros h Hhd. apply head_Some_elem_of in Hhd.
    apply elem_of_app in Hhd as [?|?]; [auto|]. rewrite Hnewlv by done. lia. }
  assert (∀ n v, reach_in g start n v → n ≤ lc → v ∈ visited st) as Hnear.
  { intros n v Hn Hle. apply (bfs_near _ _ _ Hb cur n v); try done.
    - by rewrite Hfr.
    - lia. }
  split.
  - by rewrite Hfr'.
  - rewrite Hfr'. intros h x Hhd Hx. specialize (Hh h Hhd).
    apply elem_of_app in Hx as [Hx|Hx].
    + specialize (Hql x Hx). lia.
    + rewrite Hnewlv by done. lia.
  - intros v l n. rewrite Hlev. case_decide as Hv.
    + intros [= <-] Hn. destruct (decide (n ≤ lc)) as [Hle|]; [|lia].
      apply Hnew in Hv as [_ []]. eauto.
    + apply (bfs_min _ _ _ Hb).
  - rewrite Hfr'. intros h n v Hhd Hn Hle. specialize (Hh h Hhd).
    destruct (decide (n ≤ lc)) as [Hle'|Hgt].
    { rewrite Hvis. apply elem_of_union_r. eauto. }
    destruct Hn as [|n u v Hu He]; [lia|].
    assert (n = lc) as -> by lia.
    assert (u ∈ visited st) as Huv by eauto.
    destruct (inv_visited_level _ _ _ _ Hinv Huv) as [lu Hlu].
    assert (lu ≤ lc) as Hlule by (by eapply (bfs_min _ _ _ Hb)).
    assert (lv st' u = lu) as Hlvu.
    { rewrite Hold by done. unfold lv. by rewrite Hlu. }
    apply (inv_closed _ _ _ Hinv' u v); [|..|done].
    + rewrite Hvis. by apply elem_of_union_r.
    + rewrite Hfr'. intros Hin.
      assert (lv st' h ≤ lv st' u); [|lia].
      assert (Reflexive (λ x y : string, lv st' x ≤ lv st' y)) as Hrefl
        by (intros ?; simpl; lia).
      by apply (StronglySorted_head (λ x y, lv st' x ≤ lv st' y) (queue ++ new)).
Qed.

Lemma bfs_after_inv g start goal k st :
  state_after BFS g start goal k = Some (Next, st) →
  bfs_inv g start st.
Proof.
  revert st. induction k as [|k IH]; intros st' Hk.
  - unfold state_after in Hk. simpl in Hk. simplify_eq. apply bfs_inv_initial.
  - destruct (state_after_step BFS _ _ _ _ _ _ Hk)
      as (st & Hst & Hinv & cur & queue & lc & new & Hfr & Hne & Hlc & _ & Hexp).
    eapply bfs_inv_next; eauto.
    by eapply (state_after_inv BFS).
Qed.

(** ** What the two searches return *)

Lemma search_unfold s fuel g start goal :
  search s fuel g start goal =
  (st ← while (turn_of s g goal) fuel (initial start); finish fuel goal st).
Proof. by destruct s. Qed.

Lemma returns_result s g start goal path steps lvl :
  returns s g start goal (path, steps, lvl) →
  ∃ k st,
    state_after s g start goal k = Some (Next, st) ∧ inv g start st ∧
    steps = process_steps st ∧ lvl = level st ∧
    ((frontier st = [] ∧ path = [] ∧
      state_after s g start goal (S k) = Some (Stop, st)) ∨
     (goal ∈ frontier st ∧ path_from_to g start goal path ∧
      level st !! goal = Some (pred (length path)) ∧
      ∃ st', state_after s g start goal (S k) = Some (Brk, st'))).
Proof.
  intros [fuel Hrun]. rewrite search_unfold in Hrun.
  by apply (search_result g start goal _ (turn_of_step s g start goal)) in Hrun.
Qed.

Lemma returns_total s g start goal : ∃ r, returns s g start goal r.
Proof.
  destruct (search_terminates g start goal _ (turn_of_step s g start goal))
    as (fuel & r & Hrun).
  exists r, fuel. by rewrite search_unfold.
Qed.

Lemma returns_unique s g start goal r r' :
  returns s g start goal r → returns s g start goal r' → r = r'.
Proof.
  intros [f Hf] [f' Hf']. rewrite search_unfold in Hf, Hf'.
  apply (search_more _ _ (f + f')) in Hf; [|lia].
  apply (search_more _ _ (f + f')) in Hf'; [|lia]. congruence.
Qed.

(** The loop runs out of nodes exactly when the goal cannot be reached. *)
Lemma exhausted_unreachable s g start goal k st :
  state_after s g start goal k = Some (Next, st) → frontier st = [] →
  ¬ reachable g start goal.
Proof.
  intros Hk Hfr Hreach.
  assert (inv g start st) as Hinv by eauto using state_after_inv.
  apply (exhausted_all g start st goal Hinv Hfr) in Hreach.
  apply (goal_waits g start goal _ (turn_of_step s g start goal) k st Hk)
    in Hreach.
  rewrite Hfr in Hreach. set_solver.
Qed.

Lemma frontier_reachable s g start goal k st x :
  state_after s g start goal k = Some (Next, st) → x ∈ frontier st →
  reachable g start x.
Proof.
  intros Hk Hx. assert (inv g start st) as Hinv by eauto using state_after_inv.
  eapply visited_reachable; [done|]. by apply (inv_frontier _ _ _ Hinv).
Qed.

(** The maps of a state reached by a [break] or by the end of the loop are
    those of the state before that turn. *)
Lemma state_after_maps s g start goal k fl st :
  state_after s g start goal k = Some (fl, st) →
  ∃ k0 st0,
    state_after s g start goal k0 = Some (Next, st0) ∧ inv g start st0 ∧
    visited st = visited st0 ∧ parent_map st = parent_map st0 ∧
    level st = level st0 ∧ process_steps st = process_steps st0.
Proof.
  intros Hk. destruct fl.
  - exists k, st. split_and!; eauto using state_after_inv.
  - destruct k as [|k]; [done|].
    destruct (state_after_step _ _ _ _ _ _ _ Hk)
      as (st0 & Hst0 & Hinv & rest & _ & ->).
    by exists k, st0.
  - destruct k as [|k]; [done|].
    destruct (state_after_step _ _ _ _ _ _ _ Hk) as (st0 & Hst0 & Hinv & _ & ->).
    by exists k, st0.
Qed.

(** * The properties *)

(** C3. Every non-empty path returned by either search starts with the
    start node, ends with the goal node, and each of its consecutive pairs
    (u, v) has v in the successor list of u. *)
Theorem returned_path_valid s g start goal path steps lvl :
  returns s g start goal (path, steps, lvl) →
  path ≠ [] →
  head path = Some start ∧ last path = Some goal ∧
  ∀ i u v, path !! i = Some u → path !! S i = Some v → v ∈ graph_get g u.
Proof.
  intros Hret Hne.
  destruct (returns_result _ _ _ _ _ _ _ Hret)
    as (k & st & Hk & Hinv & -> & -> & [(_ & -> & _)|(_ & Hp & _)]); [done|].
  apply Hp.
Qed.

(** C9. In the trace returned by either search the visited snapshot of each
    step is contained in the visited snapshot of the next step. *)
Theorem visited_snapshots_grow s g start goal path steps lvl :
  returns s g start goal (path, steps, lvl) →
  ∀ i r1 r2, steps !! i = Some r1 → steps !! S i = Some r2 →
  Visited r1 ⊆ Visited r2.
Proof.
  intros Hret.
  destruct (returns_result _ _ _ _ _ _ _ Hret)
    as (k & st & Hk & Hinv & -> & -> & _).
  apply (inv_trace_mono _ _ _ Hinv).
Qed.

(** C10. At initialisation and after every turn of either search, the
    visited set and the key sets of the parent map and of the level map are
    equal, and every node of the parent map other than the start node is a
    successor of its parent and lies one level below it. *)
Theorem bookkeeping_agrees s g start goal k fl st :
  state_after s g start goal k = Some (fl, st) →
  dom (parent_map st) = visited st ∧
  dom (level st) = visited st ∧
  ∀ n, n ∈ dom (parent_map st) → n ≠ start →
    ∃ p lp, parent_map st !! n = Some (Some p) ∧ n ∈ graph_get g p ∧
            level st !! p = Some lp ∧ level st !! n = Some (lp + 1).
Proof.
  intros Hk.
  destruct (state_after_maps _ _ _ _ _ _ _ Hk)
    as (k0 & st0 & _ & Hinv & -> & -> & -> & _).
  split_and!; [apply Hinv..|]. intros n Hn Hne.
  apply elem_of_dom in Hn as [[p|] Hp].
  - destruct (inv_parent _ _ _ Hinv n p Hp) as (He & lp & Hlp & Hln).
    by exists p, lp.
  - by apply (inv_root _ _ _ Hinv) in Hp.
Qed.

Lemma search_start_goal s g v fuel :
  search s (S fuel) g v v =
    Returned ([v], process_steps (initial v), {[v := 0]}).
Proof.
  rewrite search_unfold.
  assert (while (turn_of s g v) (S fuel) (initial v)
          = Returned (popped v [] (initial v))) as ->.
  { destruct s; simpl.
    - unfold bfs_turn. simpl. by rewrite decide_True.
    - unfold dfs_turn. simpl. by rewrite decide_True. }
  simpl. unfold finish. simpl. rewrite decide_True by done.
  rewrite lookup_singleton_eq. simpl. by destruct fuel.
Qed.

(** C8. With the goal equal to the start node either search breaks at its
    first turn, before looking at any successor, and returns the path of
    that one node with level 0 for it. *)
Theorem start_is_goal s g v fuel :
  state_after s g v v 1 = Some (Brk, popped v [] (initial v)) ∧
  search s (S fuel) g v v =
    Returned ([v], process_steps (initial v), {[v := 0]}).
Proof.
  split; [|apply search_start_goal].
  unfold state_after. destruct s; simpl.
  - unfold bfs_turn. simpl. by rewrite decide_True.
  - unfold dfs_turn. simpl. by rewrite decide_True.
Qed.


Lemma loop_unfold s fuel g start goal :
  loop s fuel g start goal = while (turn_of s g goal) fuel (initial start).
Proof. by destruct s. Qed.

Lemma NoDup_length_size (l : list string) (R : gset string) :
  NoDup l → (∀ x, x ∈ l → x ∈ R) → length l ≤ size R.
Proof.
  intros Hnd Hl. rewrite <- (size_list_to_set (C := gset string) l Hnd).
  apply subseteq_size. intros x Hx. apply elem_of_list_to_set in Hx. auto.
Qed.

Lemma state_after_later s g start goal k fl st j :
  state_after s g start goal k = Some (fl, st) → fl ≠ Next → k < j →
  expanded s g start goal j = None.
Proof.
  intros Hk Hfl Hlt. unfold expanded, expansion.
  destruct (after (turn_of s g goal) j (initial start)) as [x|] eqn:Hj; [|done].
  destruct (after_earlier _ k j _ _ Hj Hlt) as [st1 Hst1].
  unfold state_after in Hk. congruence.
Qed.

(** C5. For every graph, start and goal the main loop of either search
    terminates, and so does the call; the number of expansions is at most
    the number of nodes reachable from the start node; no node is expanded
    twice; and every node in the frontier is already marked visited. *)
Theorem expansions_bounded s g start goal :
  (∃ fuel st, loop s fuel g start goal = Returned st) ∧
  (∃ r, returns s g start goal r) ∧
  (∀ fuel st (R : gset string),
     loop s fuel g start goal = Returned st →
     (∀ v, reachable g start v → v ∈ R) →
     expansion_order st ≤ size R) ∧
  (∀ i j x, expanded s g start goal i = Some x →
            expanded s g start goal j = Some x → i = j) ∧
  (∀ k fl st x, state_after s g start goal k = Some (fl, st) →
                x ∈ frontier st → x ∈ visited st).
Proof.
  pose proof (turn_of_step s g start goal) as Hturn. split_and!.
  - destruct (loop_terminates g start goal _ Hturn) as [st Hst].
    exists (S (size (nodes g start))), st. by rewrite loop_unfold.
  - apply returns_total.
  - intros fuel st' R Hrun HR. rewrite loop_unfold in Hrun.
    destruct (loop_final g start goal _ Hturn _ _ Hrun)
      as (k & st & Hk & Hinv & Hcase).
    destruct (expanded_list g start goal _ Hturn k st Hk)
      as (Heo & l & Hlen & Hnd & Hl).
    assert (∀ x, x ∈ visited st → x ∈ R) as HvR
      by eauto using visited_reachable.
    destruct Hcase as [(Hfr & -> & _)|(rest & Hperm & -> & _)].
    + rewrite Heo, <- Hlen. apply NoDup_length_size; [done|].
      intros x Hx. apply HvR, Hl, Hx.
    + simpl. rewrite Heo, <- Hlen.
      assert (goal ∈ frontier st) as Hg by (rewrite Hperm; set_solver).
      transitivity (length (l ++ [goal])); [rewrite length_app; simpl; lia|].
      apply NoDup_length_size.
      * apply NoDup_app. split_and!; [done| |apply NoDup_singleton].
        intros x Hx. rewrite list_elem_of_singleton. intros ->.
        by destruct (Hl goal Hx).
      * intros x Hx. apply HvR. apply elem_of_app in Hx as [Hx|Hx].
        -- apply Hl, Hx.
        -- apply list_elem_of_singleton in Hx as ->.
           by apply (inv_frontier _ _ _ Hinv).
  - apply (expansion_inj g start goal _ Hturn).
  - intros k fl st x Hk Hx. destruct fl.
    + apply (inv_frontier g start); [|done]. by eapply state_after_inv.
    + destruct k as [|k]; [done|].
      destruct (state_after_step _ _ _ _ _ _ _ Hk)
        as (st0 & Hst0 & Hinv & rest & Htk & ->). simpl in *.
      apply (inv_frontier _ _ _ Hinv).
      destruct s; simpl in Htk; rewrite Htk; set_solver.
    + destruct k as [|k]; [done|].
      destruct (state_after_step _ _ _ _ _ _ _ Hk)
        as (st0 & Hst0 & Hinv & Hfr & ->).
      rewrite Hfr in Hx. set_solver.
Qed.

(** What a search returns when the goal cannot be reached. *)
Lemma unreachable_goal_result s g start goal path steps lvl :
  returns s g start goal (path, steps, lvl) →
  ¬ reachable g start goal →
  path = [] ∧
  (∃ n st,
     length steps = S n ∧
     (∀ i r, steps !! i = Some r → Step r = i) ∧
     (∀ i, 1 ≤ i ≤ n →
        ∃ r, steps !! i = Some r ∧
             expanded s g start goal i = Some (Expansion r)) ∧
     (∀ i, n < i → expanded s g start goal i = None) ∧
     state_after s g start goal (S n) = Some (Stop, st) ∧
     frontier st = [] ∧ visited st = dom lvl) ∧
  (∃ r, last steps = Some r ∧ Visited r = dom lvl) ∧
  (∀ v, v ∈ dom lvl ↔ reachable g start v) ∧
  goal ∉ dom lvl.
Proof.
  intros Hret Hun. pose proof (turn_of_step s g start goal) as Hturn.
  destruct (returns_result _ _ _ _ _ _ _ Hret)
    as (k & st & Hk & Hinv & -> & -> & [(Hfr & -> & HS)|(Hg & _)]).
  2: { destruct Hun. by eapply frontier_reachable. }
  destruct (expanded_list g start goal _ Hturn k st Hk) as (Heo & _).
  rewrite (inv_dom_level _ _ _ Hinv).
  assert (∀ v, v ∈ visited st ↔ reachable g start v) as Hvis.
  { intros v. split; [by apply visited_reachable|by apply exhausted_all]. }
  split_and!; try done.
  - exists k, st. split_and!; try done.
    + rewrite (inv_trace_len _ _ _ Hinv). by rewrite Heo.
    + apply (inv_trace_step _ _ _ Hinv).
    + intros i [Hi1 Hi2]. destruct i as [|i]; [lia|].
      destruct (lookup_lt_is_Some_2 (process_steps st) (S i)) as [r Hr].
      { rewrite (inv_trace_len _ _ _ Hinv). lia. }
      exists r. split; [done|].
      by apply (trace_expansion g start goal _ Hturn k st).
    + intros i Hi. destruct (decide (i = S k)) as [->|].
      * unfold expanded, expansion. unfold state_after in HS. by rewrite HS.
      * eapply state_after_later; [apply HS|done|lia].
  - apply (inv_trace_last _ _ _ Hinv).
  - rewrite Hvis. done.
Qed.

(** C6. When the goal cannot be reached from the start node, either search
    returns, and what it returns is the empty path; its trace holds, after
    the initial record, one record per expansion, up to the turn that finds
    the frontier empty; and its level map has entries exactly for the
    discovered nodes, which are the nodes reachable from the start node, so
    the goal has none. *)
Theorem unreachable_goal s g start goal :
  ¬ reachable g start goal →
  ∃ steps lvl,
    returns s g start goal ([], steps, lvl) ∧
    (∀ r, returns s g start goal r → r = ([], steps, lvl)) ∧
    (∃ n st,
       length steps = S n ∧
       (∀ i r, steps !! i = Some r → Step r = i) ∧
       (∀ i, 1 ≤ i ≤ n →
          ∃ r, steps !! i = Some r ∧
               expanded s g start goal i = Some (Expansion r)) ∧
       (∀ i, n < i → expanded s g start goal i = None) ∧
       state_after s g start goal (S n) = Some (Stop, st) ∧
       frontier st = [] ∧ visited st = dom lvl) ∧
    (∃ r, last steps = Some r ∧ Visited r = dom lvl) ∧
    (∀ v, v ∈ dom lvl ↔ reachable g start v) ∧
    goal ∉ dom lvl.
Proof.
  intros Hun. destruct (returns_total s g start goal) as [[[path steps] lvl] Hret].
  destruct (unreachable_goal_result s g start goal path steps lvl Hret Hun)
    as (-> & Htrace & Hlast & Hdom & Hgoal).
  exists steps, lvl. split_and!; try done.
  intros r Hr. by apply (returns_unique s g start goal).
Qed.

(** ** Breadth-first search: levels *)

Lemma distance_unique g s v d d' : distance g s v d → distance g s v d' → d = d'.
Proof.
  rewrite !distance_reach_in. intros [H1 H2] [H3 H4].
  apply H2 in H3. apply H4 in H1. lia.
Qed.

(** C1, as the code has it. The level map returned by breadth_first_search
    gives the goal, when it is reachable, its least number of edges from
    the start node; every entry of the map is the least number of edges to
    its node; and every reachable node that is no farther than the goal (any
    reachable node, when the goal is unreachable) has an entry. *)
Theorem bfs_levels_are_distances g start goal path steps lvl :
  returns BFS g start goal (path, steps, lvl) →
  (reachable g start goal →
     ∃ d, lvl !! goal = Some d ∧ distance g start goal d) ∧
  (∀ v d, lvl !! v = Some d → distance g start v d) ∧
  (∀ v dv, distance g start v dv →
     (∀ dg, distance g start goal dg → dv ≤ dg) →
     lvl !! v = Some dv).
Proof.
  intros Hret.
  destruct (returns_result _ _ _ _ _ _ _ Hret)
    as (k & st & Hk & Hinv & -> & -> & Hcase).
  pose proof (bfs_after_inv _ _ _ _ _ Hk) as Hb.
  assert (∀ v d, level st !! v = Some d → distance g start v d) as Hlev.
  { intros v d Hv. apply distance_reach_in. split.
    - by apply (inv_reach _ _ _ Hinv).
    - intros n. by apply (bfs_min _ _ _ Hb). }
  assert (∀ v dv, distance g start v dv → v ∈ visited st →
                  level st !! v = Some dv) as Hin.
  { intros v dv Hd Hv. destruct (inv_visited_level _ _ _ _ Hinv Hv) as [l Hl].
    rewrite Hl. f_equal. eapply distance_unique; eauto. }
  split_and!; [|done|].
  - intros Hreach. destruct Hcase as [(Hfr & _)|(Hg & _)].
    { by destruct (exhausted_unreachable _ _ _ _ _ _ Hk Hfr). }
    apply (inv_frontier _ _ _ Hinv) in Hg.
    destruct (inv_visited_level _ _ _ _ Hinv Hg) as [l Hl]. eauto.
  - intros v dv Hd Hnear. apply Hin; [done|].
    destruct Hcase as [(Hfr & _)|(Hg & _ & _ & st' & HS)].
    + apply (exhausted_all g start); [done..|].
      destruct Hd as [(p & Hp & _) _]. by exists p.
    + destruct (state_after_step _ _ _ _ _ _ _ HS)
        as (st0 & Hst0 & _ & rest & Htk & _).
      assert (st0 = st) as -> by congruence. simpl in Htk.
      assert (goal ∈ visited st) as Hgv by by apply (inv_frontier _ _ _ Hinv).
      destruct (inv_visited_level _ _ _ _ Hinv Hgv) as [l Hl].
      apply (bfs_near _ _ _ Hb goal dv v).
      * by rewrite Htk.
      * apply distance_reach_in in Hd. apply Hd.
      * unfold lv. rewrite Hl. simpl. apply Hnear. by apply Hlev.
Qed.


(** ** Tie-breaking *)

Lemma takes_Permutation s l cur rest : takes s l cur rest → l ≡ₚ cur :: rest.
Proof. destruct s; simpl; intros ->; [done|]. by rewrite Permutation_app_comm. Qed.

Lemma ahead_elem_of s x y l : ahead s x y l → x ∈ l ∧ y ∈ l.
Proof. destruct s; simpl; intros H; apply before_elem_of in H; tauto. Qed.

Lemma ahead_app s x y rest new : ahead s x y rest → ahead s x y (rest ++ new).
Proof. destruct s; apply before_app_l. Qed.

Lemma ahead_new s x y rest new :
  x ∈ new → y ∈ new → StronglySorted (walk_order s) new →
  strict String.le x y → ahead s x y (rest ++ new).
Proof.
  intros Hx Hy Hs [Hle Hnle].
  assert (x ≠ y) as Hne by (intros ->; done).
  destruct (before_total x y new Hx Hy Hne) as [Hb|Hb];
    pose proof (before_sorted _ _ _ _ Hs Hb) as HR;
    destruct s; simpl in *; try done; by apply before_app_r.
Qed.

Lemma takes_ahead s x y l cur rest :
  takes s l cur rest → NoDup l → ahead s x y l → cur ≠ x →
  ahead s x y rest ∧ cur ≠ y.
Proof.
  intros Htk Hnd Ha Hne.
  assert (ahead s x y rest) as Ha'.
  { destruct s; simpl in *; subst l.
    - by eapply before_tail.
    - by eapply before_init. }
  split; [done|]. intros ->.
  apply ahead_elem_of in Ha' as [_ Hy].
  rewrite (takes_Permutation _ _ _ _ Htk) in Hnd.
  by apply NoDup_cons in Hnd as [? _].
Qed.

Lemma expanded_S s g start goal k fl st' :
  state_after s g start goal (S k) = Some (fl, st') → fl ≠ Stop →
  expanded s g start goal (S k) = current_node st'.
Proof.
  unfold state_after, expanded, expansion. intros ->. by destruct fl.
Qed.

(** A node that is ahead of another in the frontier is expanded first. *)
Lemma leaves_first s g start goal x y : x ≠ y → ∀ n k st j,
  state_after s g start goal k = Some (Next, st) →
  ahead s x y (frontier st) →
  expanded s g start goal j = Some y → j ≤ k + n →
  ∃ i, k < i < j ∧ expanded s g start goal i = Some x.
Proof.
  intros Hxy. pose proof (turn_of_step s g start goal) as Hturn.
  induction n as [|n IH]; intros k st j Hk Ha Hj Hle.
  all: assert (inv g start st) as Hinv by eauto using state_after_inv.
  all: destruct (ahead_elem_of _ _ _ _ Ha) as [Hx Hy].
  all: assert (k < j) as Hlt.
  1,3: destruct (decide (k < j)) as [|Hge]; [done|];
       by destruct (expansion_done g start goal _ Hturn k st j y Hk Hj
                      ltac:(lia)) as [_ []].
  { lia. }
  destruct (state_after_turn _ _ _ _ _ _ Hk) as (fl & st' & HS & Hdoes).
  destruct fl; simpl in Hdoes.
  - destruct Hdoes as (cur & rest & lc & new & Htk & Hne & Hlc & Hs & Hexp).
    pose proof (expanded_S _ _ _ _ _ _ _ HS ltac:(done)) as Hcur.
    rewrite (exp_current _ _ _ _ _ _ _ _ Hexp) in Hcur.
    destruct (decide (cur = x)) as [->|Hcx].
    + exists (S k). split; [|done].
      destruct (decide (j = S k)) as [->|]; [congruence|lia].
    + destruct (takes_ahead _ _ _ _ _ _ Htk (inv_nodup _ _ _ Hinv) Ha Hcx)
        as [Ha' Hcy].
      destruct (decide (j = S k)) as [->|]; [congruence|].
      destruct (IH (S k) st' j HS) as (i & Hi & Hix); [|done|lia|].
      * rewrite (exp_frontier _ _ _ _ _ _ _ _ Hexp). by apply ahead_app.
      * exists i. split; [lia|done].
  - destruct Hdoes as (rest & Htk & ->).
    pose proof (expanded_S _ _ _ _ _ _ _ HS ltac:(done)) as Hcur. simpl in Hcur.
    destruct (decide (goal = x)) as [->|Hcx].
    + exists (S k). split; [|done].
      destruct (decide (j = S k)) as [->|]; [congruence|lia].
    + destruct (takes_ahead _ _ _ _ _ _ Htk (inv_nodup _ _ _ Hinv) Ha Hcx)
        as [Ha' Hcy].
      destruct (decide (j = S k)) as [->|]; [congruence|].
      rewrite (state_after_later _ _ _ _ _ _ _ j HS) in Hj; [done..|lia].
  - destruct Hdoes as [Hfr _]. rewrite Hfr in Hx. set_solver.
Qed.

(** C2. When a node [u] is expanded and X < Y are two of its successors
    not yet discovered, X is expanded before Y in both searches. If [u] is
    not the goal, the turn puts both in the frontier: breadth_first_search
    enqueues X to the left of Y, depth_first_search pushes Y first and X
    above it. Whenever Y is expanded later, X has been expanded before. *)
Theorem smaller_sibling_first s g start goal k st u X Y :
  state_after s g start goal k = Some (Next, st) →
  expanded s g start goal (S k) = Some u →
  X ∈ graph_get g u → Y ∈ graph_get g u →
  X ∉ visited st → Y ∉ visited st →
  strict String.le X Y →
  (u ≠ goal →
     ∃ st', state_after s g start goal (S k) = Some (Next, st') ∧
            match s with
            | BFS => before X Y (frontier st')
            | DFS => before Y X (frontier st')
            end) ∧
  (∀ j, expanded s g start goal j = Some Y →
        ∃ i, i < j ∧ expanded s g start goal i = Some X).
Proof.
  intros Hk Hu HX HY HXv HYv Hlt.
  pose proof (turn_of_step s g start goal) as Hturn.
  assert (inv g start st) as Hinv by eauto using state_after_inv.
  assert (X ≠ Y) as Hne by (intros ->; by destruct Hlt).
  destruct (state_after_turn _ _ _ _ _ _ Hk) as (fl & st' & HS & Hdoes).
  destruct fl; simpl in Hdoes.
  - destruct Hdoes as (cur & rest & lc & new & Htk & Hcg & Hlc & Hs & Hexp).
    rewrite (expanded_S _ _ _ _ _ _ _ HS) in Hu by done.
    rewrite (exp_current _ _ _ _ _ _ _ _ Hexp) in Hu.
    assert (cur = u) as -> by congruence.
    assert (ahead s X Y (frontier st')) as Ha.
    { rewrite (exp_frontier _ _ _ _ _ _ _ _ Hexp).
      apply ahead_new; try done; by apply (exp_new _ _ _ _ _ _ _ _ Hexp). }
    split.
    + intros _. exists st'. split; [done|]. by destruct s.
    + intros j Hj.
      destruct (leaves_first s g start goal X Y Hne j (S k) st' j HS Ha Hj)
        as (i & Hi & Hix); [lia|].
      exists i. split; [lia|done].
  - destruct Hdoes as (rest & Htk & ->).
    rewrite (expanded_S _ _ _ _ _ _ _ HS) in Hu by done. simpl in Hu.
    assert (u = goal) as -> by congruence. split; [done|].
    intros j Hj. exfalso.
    destruct (decide (j ≤ k)) as [Hle|Hgt].
    { by destruct (expansion_done g start goal _ Hturn k st j Y Hk Hj Hle). }
    destruct (decide (j = S k)) as [->|].
    + rewrite (expanded_S _ _ _ _ _ _ _ HS) in Hj by done. simpl in Hj.
      assert (Y = goal) as -> by congruence.
      apply HYv, (inv_frontier _ _ _ Hinv).
      rewrite (takes_Permutation _ _ _ _ Htk). set_solver.
    + rewrite (state_after_later _ _ _ _ _ _ _ j HS) in Hj; [done..|lia].
  - unfold expanded, expansion in Hu. unfold state_after in HS.
    by rewrite HS in Hu.
Qed.


(** ** The sample graph *)

(** Facts about a run are read off its computed outcome. *)
Lemma returns_match s fuel g start goal
    (P : list string → list process_step → gmap string nat → Prop) :
  match search s fuel g start goal with
  | Returned (path, steps, lvl) => P path steps lvl
  | _ => False
  end →
  ∃ path steps lvl, returns s g start goal (path, steps, lvl) ∧ P path steps lvl.
Proof.
  intros H. destruct (search s fuel g start goal) as [[[path steps] lvl]| |] eqn:E;
    [|done..].
  exists path, steps, lvl. split; [by exists fuel|done].
Qed.

Lemma state_match (o : option (flow * locals)) (P : flow → locals → Prop) :
  match o with Some (fl, st) => P fl st | None => False end →
  ∃ fl st, o = Some (fl, st) ∧ P fl st.
Proof. destruct o as [[fl st]|]; [eauto|done]. Qed.

Lemma sample_edge u v :
  bool_decide (v ∈ graph_get GRAPH u) = true → v ∈ graph_get GRAPH u.
Proof. apply bool_decide_eq_true_1. Qed.

Lemma sample_from_F n v : reach_in GRAPH "F" n v → v = "F".
Proof.
  induction 1 as [|n u v _ -> He]; [done|].
  unfold edge in He. vm_compute in He. by apply elem_of_nil in He.
Qed.

Lemma sample_F_to_A : ¬ reachable GRAPH "F" "A".
Proof.
  intros H. apply reachable_reach_in in H as [n Hn].
  by apply sample_from_F in Hn.
Qed.

Lemma sample_from_E n v :
  reach_in GRAPH "E" n v → v ∈ ["E"; "H"; "G"; "F"].
Proof.
  induction 1 as [|n u v _ IH He]; [set_solver|].
  unfold edge in He.
  repeat (apply elem_of_cons in IH as [->|IH]);
    [vm_compute in He..|by apply elem_of_nil in IH];
    set_solver.
Qed.

Lemma sample_E_to_A : ¬ reachable GRAPH "E" "A".
Proof.
  intros H. apply reachable_reach_in in H as [n Hn].
  apply sample_from_E in Hn. set_solver.
Qed.

Lemma sample_A_to_B : distance GRAPH "A" "B" 1.
Proof.
  apply distance_reach_in. split.
  - apply reach_edge with "A"; [constructor|].
    by apply sample_edge.
  - intros n Hn. inversion Hn; lia.
Qed.

(** C7. On the graph of the file, from A to F, breadth_first_search returns
    the path A, B, G, F and a level map with A=0, B=1, D=1, C=2, E=2, G=2
    and F=3. *)
Theorem bfs_sample_run :
  ∃ steps lvl,
    returns BFS GRAPH "A" "F" (["A"; "B"; "G"; "F"], steps, lvl) ∧
    lvl !! "A" = Some 0 ∧ lvl !! "B" = Some 1 ∧ lvl !! "D" = Some 1 ∧
    lvl !! "C" = Some 2 ∧ lvl !! "E" = Some 2 ∧ lvl !! "G" = Some 2 ∧
    lvl !! "F" = Some 3.
Proof.
  destruct (returns_match BFS 9 GRAPH "A" "F"
    (λ path _ lvl, path = ["A"; "B"; "G"; "F"] ∧
          lvl !! "A" = Some 0 ∧ lvl !! "B" = Some 1 ∧ lvl !! "D" = Some 1 ∧
          lvl !! "C" = Some 2 ∧ lvl !! "E" = Some 2 ∧ lvl !! "G" = Some 2 ∧
          lvl !! "F" = Some 3))
    as (path & steps & lvl & Hret & -> & Hlvl).
  { vm_compute. repeat split. }
  exists steps, lvl. split; assumption.
Qed.

(** C4, at the second expansion of the sample run. The queue holds D, C, E
    and G after B is expanded, but the recorded frontier is D, C, D, E, G:
    the queue as it was before the new nodes, followed by the whole sorted
    queue. It is not the sorted queue, and D appears twice. *)
Theorem bfs_frontier_snapshot_repeats :
  ∃ path steps lvl st r,
    returns BFS GRAPH "A" "F" (path, steps, lvl) ∧
    state_after BFS GRAPH "A" "F" 2 = Some (Next, st) ∧
    frontier st = ["D"; "C"; "E"; "G"] ∧
    steps !! 2 = Some r ∧
    Expansion r = "B" ∧
    Frontier r = ["D"; "C"; "D"; "E"; "G"] ∧
    Frontier r ≠ sorted (frontier st) ∧
    ¬ NoDup (Frontier r).
Proof.
  destruct (returns_match BFS 9 GRAPH "A" "F"
    (λ _ steps _, match steps !! 2 with
          | Some r => Expansion r = "B" ∧
                      Frontier r = ["D"; "C"; "D"; "E"; "G"]
          | None => False
          end))
    as (path & steps & lvl & Hret & Hr).
  { vm_compute. split; reflexivity. }
  destruct (steps !! 2) as [r|] eqn:Hr2; [|destruct Hr].
  destruct Hr as [He Hf].
  destruct (state_match (state_after BFS GRAPH "A" "F" 2)
    (λ fl st, fl = Next ∧ frontier st = ["D"; "C"; "E"; "G"]))
    as (fl & st & Hst & -> & Hfr).
  { vm_compute. split; reflexivity. }
  exists path, steps, lvl, st, r.
  split; [exact Hret|]. split; [exact Hst|]. split; [exact Hfr|].
  split; [exact Hr2|]. split; [exact He|]. split; [exact Hf|].
  rewrite Hf, Hfr. clear. split.
  - vm_compute. intros [=].
  - rewrite !NoDup_cons. set_solver.
Qed.


(** What breadth_first_search records as the frontier of a step, on every
    graph: the queue left after the dequeue, then the whole new queue
    sorted. *)
Lemma bfs_recorded_frontier g start goal k st' :
  state_after BFS g start goal (S k) = Some (Next, st') →
  ∃ st cur queue r,
    state_after BFS g start goal k = Some (Next, st) ∧
    frontier st = cur :: queue ∧
    last (process_steps st') = Some r ∧
    Frontier r = queue ++ sorted (frontier st').
Proof.
  intros HS.
  destruct (state_after_step _ _ _ _ _ _ _ HS)
    as (st & Hst & Hinv & cur & queue & lc & new & Htk & _ & _ & _ & Hexp).
  simpl in Htk. eexists st, cur, queue, _. split_and!; [done..| |].
  - rewrite (exp_steps _ _ _ _ _ _ _ _ Hexp). apply last_snoc.
  - simpl. by rewrite (exp_frontier _ _ _ _ _ _ _ _ Hexp).
Qed.

(** C1 as stated fails: with start = goal = A on the sample graph the
    search stops at once, and B, one edge away from A, has no level. *)
Lemma bfs_levels_miss_reachable_nodes :
  ¬ (∀ g start goal path steps lvl v d,
       returns BFS g start goal (path, steps, lvl) →
       reachable g start goal →
       distance g start v d →
       lvl !! v = Some d).
Proof.
  intros H.
  specialize (H GRAPH "A" "A" ["A"] (process_steps (initial "A"))
                {["A" := 0]} "B" 1).
  rewrite lookup_singleton_ne in H by (intros [=]).
  assert (None = Some 1) as Hno; [|discriminate Hno].
  apply H.
  - exists 1. apply (search_start_goal BFS).
  - apply reachable_reach_in. exists 0. constructor.
  - apply sample_A_to_B.
Qed.

(** ** The properties at work on the sample graph *)

Lemma bfs_levels_are_distances_witness :
  ∃ path steps lvl,
    returns BFS GRAPH "A" "F" (path, steps, lvl) ∧
    (reachable GRAPH "A" "F" →
       ∃ d, lvl !! "F" = Some d ∧ distance GRAPH "A" "F" d) ∧
    (∀ v d, lvl !! v = Some d → distance GRAPH "A" v d) ∧
    (∀ v dv, distance GRAPH "A" v dv →
       (∀ dg, distance GRAPH "A" "F" dg → dv ≤ dg) →
       lvl !! v = Some dv).
Proof.
  destruct (returns_match BFS 9 GRAPH "A" "F" (λ _ _ _, True))
    as (path & steps & lvl & Hret & _).
  { vm_compute. exact I. }
  exists path, steps, lvl. split; [exact Hret|].
  exact (bfs_levels_are_distances GRAPH "A" "F" path steps lvl Hret).
Defined.

Lemma smaller_sibling_first_witness :
  (("A" ≠ "F" →
      ∃ st', state_after BFS GRAPH "A" "F" 1 = Some (Next, st') ∧
             before "B" "D" (frontier st')) ∧
   (∀ j, expanded BFS GRAPH "A" "F" j = Some "D" →
         ∃ i, i < j ∧ expanded BFS GRAPH "A" "F" i = Some "B")) ∧
  (("A" ≠ "F" →
      ∃ st', state_after DFS GRAPH "A" "F" 1 = Some (Next, st') ∧
             before "D" "B" (frontier st')) ∧
   (∀ j, expanded DFS GRAPH "A" "F" j = Some "D" →
         ∃ i, i < j ∧ expanded DFS GRAPH "A" "F" i = Some "B")).
Proof.
  split.
  - apply (smaller_sibling_first BFS GRAPH "A" "F" 0 (initial "A") "A" "B" "D").
    + reflexivity.
    + vm_compute. reflexivity.
    + apply sample_edge. vm_compute. reflexivity.
    + apply sample_edge. vm_compute. reflexivity.
    + simpl. rewrite elem_of_singleton. intros [=].
    + simpl. rewrite elem_of_singleton. intros [=].
    + split; vm_compute; [exact I|intros []].
  - apply (smaller_sibling_first DFS GRAPH "A" "F" 0 (initial "A") "A" "B" "D").
    + reflexivity.
    + vm_compute. reflexivity.
    + apply sample_edge. vm_compute. reflexivity.
    + apply sample_edge. vm_compute. reflexivity.
    + simpl. rewrite elem_of_singleton. intros [=].
    + simpl. rewrite elem_of_singleton. intros [=].
    + split; vm_compute; [exact I|intros []].
Defined.

Lemma returned_path_valid_witness :
  ∃ path steps lvl,
    returns DFS GRAPH "A" "F" (path, steps, lvl) ∧ path ≠ [] ∧
    head path = Some "A" ∧ last path = Some "F" ∧
    ∀ i u v, path !! i = Some u → path !! S i = Some v →
             v ∈ graph_get GRAPH u.
Proof.
  destruct (returns_match DFS 9 GRAPH "A" "F" (λ path _ _, path ≠ []))
    as (path & steps & lvl & Hret & Hne).
  { vm_compute. intros Hnil. discriminate Hnil. }
  exists path, steps, lvl. split; [exact Hret|]. split; [exact Hne|].
  exact (returned_path_valid DFS GRAPH "A" "F" path steps lvl Hret Hne).
Defined.

Lemma unreachable_goal_witness :
  ¬ reachable GRAPH "E" "A" ∧
  (∃ steps lvl,
     returns BFS GRAPH "E" "A" ([], steps, lvl) ∧
     (∀ r, returns BFS GRAPH "E" "A" r → r = ([], steps, lvl)) ∧
     (∃ n st,
        length steps = S n ∧
        (∀ i r, steps !! i = Some r → Step r = i) ∧
        (∀ i, 1 ≤ i ≤ n →
           ∃ r, steps !! i = Some r ∧
                expanded BFS GRAPH "E" "A" i = Some (Expansion r)) ∧
        (∀ i, n < i → expanded BFS GRAPH "E" "A" i = None) ∧
        state_after BFS GRAPH "E" "A" (S n) = Some (Stop, st) ∧
        frontier st = [] ∧ visited st = dom lvl) ∧
     (∃ r, last steps = Some r ∧ Visited r = dom lvl) ∧
     (∀ v, v ∈ dom lvl ↔ reachable GRAPH "E" v) ∧
     "A" ∉ dom lvl) ∧
  (∃ steps lvl,
     returns DFS GRAPH "E" "A" ([], steps, lvl) ∧
     (∀ r, returns DFS GRAPH "E" "A" r → r = ([], steps, lvl)) ∧
     (∃ n st,
        length steps = S n ∧
        (∀ i r, steps !! i = Some r → Step r = i) ∧
        (∀ i, 1 ≤ i ≤ n →
           ∃ r, steps !! i = Some r ∧
                expanded DFS GRAPH "E" "A" i = Some (Expansion r)) ∧
        (∀ i, n < i → expanded DFS GRAPH "E" "A" i = None) ∧
        state_after DFS GRAPH "E" "A" (S n) = Some (Stop, st) ∧
        frontier st = [] ∧ visited st = dom lvl) ∧
     (∃ r, last steps = Some r ∧ Visited r = dom lvl) ∧
     (∀ v, v ∈ dom lvl ↔ reachable GRAPH "E" v) ∧
     "A" ∉ dom lvl) ∧
  (∃ steps lvl,
     returns BFS GRAPH "E" "A" ([], steps, lvl) ∧ length steps = 5 ∧
     lvl !! "E" = Some 0 ∧ lvl !! "H" = Some 1 ∧ lvl !! "F" = Some 2 ∧
     lvl !! "G" = Some 2 ∧ lvl !! "A" = None) ∧
  (∃ steps lvl,
     returns DFS GRAPH "E" "A" ([], steps, lvl) ∧ length steps = 5 ∧
     lvl !! "E" = Some 0 ∧ lvl !! "H" = Some 1 ∧ lvl !! "F" = Some 2 ∧
     lvl !! "G" = Some 2 ∧ lvl !! "A" = None).
Proof.
  split; [exact sample_E_to_A|].
  split; [exact (unreachable_goal BFS GRAPH "E" "A" sample_E_to_A)|].
  split; [exact (unreachable_goal DFS GRAPH "E" "A" sample_E_to_A)|].
  split.
  - destruct (returns_match BFS 9 GRAPH "E" "A"
      (λ path steps lvl, path = [] ∧ length steps = 5 ∧
         lvl !! "E" = Some 0 ∧ lvl !! "H" = Some 1 ∧ lvl !! "F" = Some 2 ∧
         lvl !! "G" = Some 2 ∧ lvl !! "A" = None))
      as (path & steps & lvl & Hret & -> & Hfacts).
    { vm_compute. repeat split. }
    exists steps, lvl. split; [exact Hret|exact Hfacts].
  - destruct (returns_match DFS 9 GRAPH "E" "A"
      (λ path steps lvl, path = [] ∧ length steps = 5 ∧
         lvl !! "E" = Some 0 ∧ lvl !! "H" = Some 1 ∧ lvl !! "F" = Some 2 ∧
         lvl !! "G" = Some 2 ∧ lvl !! "A" = None))
      as (path & steps & lvl & Hret & -> & Hfacts).
    { vm_compute. repeat split. }
    exists steps, lvl. split; [exact Hret|exact Hfacts].
Defined.

Lemma visited_snapshots_grow_witness :
  ∃ path steps lvl,
    returns BFS GRAPH "A" "F" (path, steps, lvl) ∧
    ∀ i r1 r2, steps !! i = Some r1 → steps !! S i = Some r2 →
               Visited r1 ⊆ Visited r2.
Proof.
  destruct (returns_match BFS 9 GRAPH "A" "F" (λ _ _ _, True))
    as (path & steps & lvl & Hret & _).
  { vm_compute. exact I. }
  exists path, steps, lvl. split; [exact Hret|].
  exact (visited_snapshots_grow BFS GRAPH "A" "F" path steps lvl Hret).
Defined.

Lemma bookkeeping_agrees_witness :
  ∃ fl st,
    state_after DFS GRAPH "A" "F" 3 = Some (fl, st) ∧
    dom (parent_map st) = visited st ∧
    dom (level st) = visited st ∧
    ∀ n, n ∈ dom (parent_map st) → n ≠ "A" →
      ∃ p lp, parent_map st !! n = Some (Some p) ∧ n ∈ graph_get GRAPH p ∧
              level st !! p = Some lp ∧ level st !! n = Some (lp + 1).
Proof.
  destruct (state_match (state_after DFS GRAPH "A" "F" 3) (λ _ _, True))
    as (fl & st & Hst & _).
  { vm_compute. exact I. }
  exists fl, st. split; [exact Hst|].
  exact (bookkeeping_agrees DFS GRAPH "A" "F" 3 fl st Hst).
Defined.


(** * Further properties of the two searches *)

(** ** How a call ends *)

Lemma walk_parents_not_raised fuel pm curr acc e :
  walk_parents fuel pm curr acc ≠ Raised e.
Proof.
  revert curr acc. induction fuel as [|fuel IH]; intros [c|] acc; simpl; try done.
Qed.

Lemma while_not_raised s g start goal fuel : ∀ k st e,
  state_after s g start goal k = Some (Next, st) →
  while (turn_of s g goal) fuel st ≠ Raised e.
Proof.
  induction fuel as [|fuel IH]; intros k st e Hk; [done|].
  destruct (after_turn g start goal _ (turn_of_step s g start goal) k st Hk)
    as (fl & st' & HS & Ht & _).
  simpl. rewrite Ht. simpl. destruct fl; try done. by apply (IH (S k)).
Qed.

(** The state a returning call ends its loop in, and the walk over the
    parent map that gives its path. *)
Lemma returns_cases s g start goal path steps lvl :
  returns s g start goal (path, steps, lvl) →
  ∃ k st,
    state_after s g start goal k = Some (Next, st) ∧ inv g start st ∧
    steps = process_steps st ∧ lvl = level st ∧
    ((frontier st = [] ∧ path = [] ∧
      state_after s g start goal (S k) = Some (Stop, st)) ∨
     (∃ rest fuel q,
        takes s (frontier st) goal rest ∧
        state_after s g start goal (S k) = Some (Brk, popped goal rest st) ∧
        walk_parents fuel (parent_map st) (Some goal) [] = Returned q ∧
        path = reverse q)).
Proof.
  intros [fuel Hrun]. rewrite search_unfold in Hrun.
  pose proof (turn_of_step s g start goal) as Hturn.
  destruct (while (turn_of s g goal) fuel (initial start)) as [st'| |] eqn:Hloop;
    try done.
  simpl in Hrun.
  destruct (loop_final g start goal _ Hturn _ _ Hloop)
    as (k & st & Hk & Hinv & Hcase).
  exists k, st.
  destruct Hcase as [(Hfr & -> & HS)|(rest & Hperm & -> & HS)].
  - destruct k as [|k]; [unfold state_after in *; simpl in Hk; by simplify_eq|].
    destruct (state_after_step _ _ _ _ _ _ _ Hk)
      as (st0 & _ & _ & cur & rest & lc & new & _ & Hne & _ & _ & Hexp).
    unfold finish in Hrun. rewrite (exp_current _ _ _ _ _ _ _ _ Hexp) in Hrun.
    rewrite decide_False in Hrun by done. simplify_eq.
    split_and!; try done. by left.
  - destruct (state_after_step _ _ _ _ _ _ _ HS)
      as (st0 & Hst0 & _ & rest' & Htk & Hpop).
    assert (st0 = st) as -> by (unfold state_after in *; congruence).
    unfold finish in Hrun. simpl in Hrun. rewrite decide_True in Hrun by done.
    destruct (walk_parents fuel (parent_map st) (Some goal) []) as [q| |] eqn:Hw;
      simpl in Hrun; try done. simplify_eq.
    split_and!; try done. right. exists rest', fuel, q.
    by split_and!.
Qed.

(** The walk over the parent map goes down one level per node. *)
Lemma walk_parents_levels g start st :
  inv g start st → ∀ fuel v l acc q,
  level st !! v = Some l →
  walk_parents fuel (parent_map st) (Some v) acc = Returned q →
  ∃ p, q = acc ++ p ∧ length p = S l ∧
       ∀ i x, p !! i = Some x → level st !! x = Some (l - i).
Proof.
  intros Hinv. induction fuel as [|fuel IH]; intros v l acc q Hl Hw; [done|].
  simpl in Hw.
  assert (is_Some (parent_map st !! v)) as [o Ho].
  { apply elem_of_dom. rewrite (inv_dom_parent _ _ _ Hinv).
    by eapply inv_level_visited. }
  rewrite Ho in Hw. simpl in Hw. destruct o as [u|].
  - destruct (inv_parent _ _ _ Hinv v u Ho) as (He & lu & Hlu & Hlv).
    assert (l = lu + 1) as -> by congruence.
    destruct (IH u lu (acc ++ [v]) q Hlu Hw) as (p & -> & Hlen & Hp).
    exists (v :: p). split_and!.
    + by list_assoc.
    + simpl. lia.
    + intros [|i] x Hx; simpl in Hx.
      * simplify_eq. rewrite Hl. f_equal. lia.
      * rewrite (Hp i x Hx). f_equal. lia.
  - apply (inv_root _ _ _ Hinv) in Ho as ->.
    assert (l = 0) as -> by (pose proof (inv_start_level _ _ _ Hinv); congruence).
    assert (q = acc ++ [start]) as -> by (destruct fuel; simpl in Hw; congruence).
    exists [start]. split_and!; try done.
    intros [|i] x Hx; simplify_eq/=. apply (inv_start_level _ _ _ Hinv).
Qed.

(** X1. Neither search raises: the reads of [level[current_node]] always
    find their key, and [current_node] is bound when the loop is over. *)
Theorem search_never_raises s fuel g start goal e :
  search s fuel g start goal ≠ Raised e.
Proof.
  rewrite search_unfold.
  pose proof (turn_of_step s g start goal) as Hturn.
  destruct (while (turn_of s g goal) fuel (initial start)) as [st'|e'|] eqn:Hloop;
    simpl; [|by eapply (while_not_raised s g start goal fuel 0) in Hloop|done].
  destruct (loop_final g start goal _ Hturn _ _ Hloop)
    as (k & st & Hk & Hinv & [(Hfr & -> & HS)|(rest & Hperm & -> & HS)]).
  - destruct k as [|k]; [simpl in Hk; by simplify_eq|].
    destruct (after_step g start goal _ Hturn _ _ _ Hk)
      as (st0 & _ & _ & _ & Hstep).
    inversion Hstep as [| |cur rest lc new shown st3 Hperm Hne Hlc Hexp]; subst.
    unfold finish. rewrite (exp_current _ _ _ _ _ _ _ _ Hexp).
    by rewrite decide_False.
  - unfold finish. simpl. rewrite decide_True by done.
    destruct (walk_parents fuel (parent_map st) (Some goal) []) eqn:Hw; simpl;
      [done| |done].
    by apply walk_parents_not_raised in Hw.
Qed.

(** A returned path is non-empty exactly when the goal can be reached. *)
Lemma path_iff_reachable_result s g start goal path steps lvl :
  returns s g start goal (path, steps, lvl) →
  path ≠ [] ↔ reachable g start goal.
Proof.
  intros Hret.
  destruct (returns_result _ _ _ _ _ _ _ Hret)
    as (k & st & Hk & Hinv & _ & _ & [(Hfr & -> & _)|(Hg & Hp & _)]).
  - split; [done|]. intros Hr.
    by destruct (exhausted_unreachable _ _ _ _ _ _ Hk Hfr).
  - split.
    + intros _. by eapply frontier_reachable.
    + intros _ ->. by destruct Hp as [? _].
Qed.

(** X2. Either search returns, whatever the graph, start and goal, and the
    path it returns is non-empty exactly when the goal can be reached from
    the start node: a path is found when there is one, and the empty path
    is returned when there is none. *)
Theorem path_found_iff_reachable s g start goal :
  ∃ path steps lvl,
    returns s g start goal (path, steps, lvl) ∧
    (∀ r, returns s g start goal r → r = (path, steps, lvl)) ∧
    (path ≠ [] ↔ reachable g start goal).
Proof.
  destruct (returns_total s g start goal) as [[[path steps] lvl] Hret].
  exists path, steps, lvl. split_and!; [done| |].
  - intros r Hr. by apply (returns_unique s g start goal).
  - by apply (path_iff_reachable_result s g start goal path steps lvl).
Qed.

(** X3. The node at position [i] of a returned path has level [i] in the
    returned level map; so the path visits no node twice and has as many
    edges as the level of the goal. *)
Theorem path_levels s g start goal path steps lvl :
  returns s g start goal (path, steps, lvl) →
  (∀ i v, path !! i = Some v → lvl !! v = Some i) ∧
  NoDup path ∧
  (path ≠ [] → lvl !! goal = Some (length path - 1)).
Proof.
  intros Hret.
  destruct (returns_cases _ _ _ _ _ _ _ Hret)
    as (k & st & Hk & Hinv & -> & -> & Hcase).
  assert (∀ i v, path !! i = Some v → level st !! v = Some i) as Hlev.
  { destruct Hcase as [(_ & -> & _)|(rest & fuel & q & Htk & _ & Hw & ->)];
      [done|].
    assert (goal ∈ visited st) as Hgv.
    { apply (inv_frontier _ _ _ Hinv).
      rewrite (takes_Permutation _ _ _ _ Htk). set_solver. }
    destruct (inv_visited_level _ _ _ _ Hinv Hgv) as [l Hl].
    destruct (walk_parents_levels g start st Hinv fuel goal l [] q Hl Hw)
      as (p & -> & Hlen & Hp). simpl.
    intros i v Hi. apply reverse_lookup_Some in Hi as [Hi Hlt].
    rewrite (Hp _ _ Hi). f_equal. lia. }
  split_and!; [done| |].
  - apply NoDup_alt. intros i j x Hi Hj.
    apply Hlev in Hi. apply Hlev in Hj. congruence.
  - intros Hne.
    destruct (returns_result _ _ _ _ _ _ _ Hret)
      as (k' & st' & Hk' & _ & _ & Hl' & [(_ & -> & _)|(_ & _ & Hg & _)]);
      [done|].
    rewrite Hl'. rewrite Hg. f_equal. lia.
Qed.

(** X4. A path returned by breadth_first_search is a shortest one: no path
    from the start node to the goal has fewer nodes. *)
Theorem bfs_path_shortest g start goal path steps lvl :
  returns BFS g start goal (path, steps, lvl) →
  path ≠ [] →
  path_from_to g start goal path ∧
  ∀ p, path_from_to g start goal p → length path ≤ length p.
Proof.
  intros Hret Hne.
  destruct (returns_result _ _ _ _ _ _ _ Hret)
    as (k & st & Hk & Hinv & _ & _ & [(_ & -> & _)|(_ & Hp & Hg & _)]);
    [done|].
  split; [done|]. intros p Hpp.
  pose proof (bfs_after_inv _ _ _ _ _ Hk) as Hb.
  destruct p as [|a p]. { by destruct Hpp as [? _]. }
  assert (reach_in g start (length p) goal) as Hr.
  { apply reach_in_path. by exists (a :: p). }
  pose proof (bfs_min _ _ _ Hb goal _ _ Hg Hr). simpl.
  destruct path; [done|simpl in *; lia].
Qed.

(** X5. Depth-first levels are never below breadth-first levels, node by
    node, and a path found by depth_first_search is never shorter than the
    one breadth_first_search finds. *)
Theorem dfs_not_shorter g start goal path1 steps1 lvl1 path2 steps2 lvl2 :
  returns BFS g start goal (path1, steps1, lvl1) →
  returns DFS g start goal (path2, steps2, lvl2) →
  (∀ v a b, lvl1 !! v = Some a → lvl2 !! v = Some b → a ≤ b) ∧
  length path1 ≤ length path2.
Proof.
  intros Hret1 Hret2.
  destruct (returns_result _ _ _ _ _ _ _ Hret1)
    as (k1 & st1 & Hk1 & Hinv1 & _ & -> & Hc1).
  destruct (returns_result _ _ _ _ _ _ _ Hret2)
    as (k2 & st2 & Hk2 & Hinv2 & _ & -> & Hc2).
  pose proof (bfs_after_inv _ _ _ _ _ Hk1) as Hb.
  assert (∀ v a b, level st1 !! v = Some a → level st2 !! v = Some b → a ≤ b)
    as Hle.
  { intros v a b Ha Hb'. apply (bfs_min _ _ _ Hb v); [done|].
    by apply (inv_reach _ _ _ Hinv2). }
  split; [done|].
  destruct Hc1 as [(_ & -> & _)|(Hg1 & _ & Hl1 & _)]; [simpl; lia|].
  destruct Hc2 as [(Hfr2 & _ & _)|(_ & Hp2 & Hl2 & _)].
  - destruct (exhausted_unreachable _ _ _ _ _ _ Hk2 Hfr2).
    apply (frontier_reachable BFS g start goal k1 st1 goal Hk1 Hg1).
  - specialize (Hle _ _ _ Hl1 Hl2).
    destruct path2; [by destruct Hp2 as [? _]|]. simpl in *. lia.
Qed.


(** ** The trace *)

Lemma trace_records s g start goal k : ∀ st,
  state_after s g start goal k = Some (Next, st) →
  process_steps st !! 0 = process_steps (initial start) !! 0 ∧
  ∀ i r, process_steps st !! S i = Some r →
    Expansion r ≠ goal ∧
    level st !! Expansion r = Some (Level r) ∧
    (∀ x, x ∈ Frontier r → x ∈ Visited r) ∧
    Visited r ⊆ visited st ∧
    (s = DFS → NoDup (Frontier r)).
Proof.
  induction k as [|k IH]; intros st' Hk.
  - unfold state_after in Hk. simpl in Hk. simplify_eq. split; [done|].
    intros i r Hr. done.
  - destruct (state_after_step _ _ _ _ _ _ _ Hk)
      as (st & Hst & Hinv & cur & rest & lc & new & Htk & Hne & Hlc & _ & Hexp).
    assert (inv g start st') as Hinv' by eauto using state_after_inv.
    destruct (IH st Hst) as [H0 Hrec].
    destruct Hexp as [Hnd Hnew Hfr Hvis Hpar Hlev Hps Heo Hcn].
    assert (∀ x l, level st !! x = Some l → level st' !! x = Some l) as Hkeep.
    { intros x l Hx. rewrite Hlev, decide_False; [done|].
      rewrite Hnew. intros [_ []]. by eapply inv_level_visited. }
    rewrite Hps. split.
    + rewrite lookup_app_l; [done|]. rewrite (inv_trace_len _ _ _ Hinv). lia.
    + intros i r Hr. apply lookup_app_Some in Hr as [Hr|[Hge Hr]].
      * destruct (Hrec i r Hr) as (? & ? & ? & ? & ?).
        split_and!; eauto. rewrite Hvis. set_solver.
      * apply list_lookup_singleton_Some in Hr as [_ <-]. simpl.
        split_and!; [done|by apply Hkeep| |done|].
        -- intros x Hx. apply (inv_frontier _ _ _ Hinv'). rewrite Hfr.
           destruct s; simpl in Hx.
           ++ apply elem_of_app in Hx as [Hx|Hx].
              ** apply elem_of_app. by left.
              ** exact (proj1 (elem_of_sorted _ _) Hx).
           ++ exact (proj1 (elem_of_reverse _ _) Hx).
        -- intros ->. simpl. rewrite reverse_Permutation, <- Hfr.
           apply (inv_nodup _ _ _ Hinv').
Qed.

(** X6. In the trace returned by either search the records are numbered
    0, 1, 2, ...; record 0 is the initial record; and every later record
    tells the node expanded in the turn of that number, with the level the
    returned level map gives to that node. *)
Theorem trace_tells_expansions s g start goal path steps lvl :
  returns s g start goal (path, steps, lvl) →
  steps !! 0 = Some {| Step := 0; Expansion := "Start"; Level := 0;
                       Frontier := [start]; Visited := {[start]} |} ∧
  ∀ i r, steps !! i = Some r →
    Step r = i ∧
    (1 ≤ i → expanded s g start goal i = Some (Expansion r) ∧
             lvl !! Expansion r = Some (Level r)).
Proof.
  intros Hret. pose proof (turn_of_step s g start goal) as Hturn.
  destruct (returns_result _ _ _ _ _ _ _ Hret)
    as (k & st & Hk & Hinv & -> & -> & _).
  destruct (trace_records _ _ _ _ _ _ Hk) as [H0 Hrec].
  split; [by rewrite H0|]. intros i r Hr.
  split; [by apply (inv_trace_step _ _ _ Hinv)|]. intros Hi.
  destruct i as [|i]; [lia|]. split.
  - by apply (trace_expansion g start goal _ Hturn k st).
  - by destruct (Hrec i r Hr) as (_ & ? & _).
Qed.

(** X7. The turn that takes the goal from the frontier adds no record:
    when a path is found, no record of the trace has the goal as its
    expansion, and the goal is expanded in the turn whose number is the
    length of the trace. *)
Theorem goal_turn_not_recorded s g start goal path steps lvl :
  returns s g start goal (path, steps, lvl) →
  (∀ i r, steps !! S i = Some r → Expansion r ≠ goal) ∧
  (path ≠ [] → expanded s g start goal (length steps) = Some goal).
Proof.
  intros Hret. pose proof (turn_of_step s g start goal) as Hturn.
  destruct (returns_cases _ _ _ _ _ _ _ Hret)
    as (k & st & Hk & Hinv & -> & -> & Hcase).
  destruct (trace_records _ _ _ _ _ _ Hk) as [_ Hrec]. split.
  - intros i r Hr. by destruct (Hrec i r Hr) as (? & _).
  - intros Hne.
    destruct Hcase as [(_ & -> & _)|(rest & fuel & q & _ & HS & _)]; [done|].
    rewrite (inv_trace_len _ _ _ Hinv).
    destruct (expanded_list g start goal _ Hturn k st Hk) as [-> _].
    by rewrite (expanded_S _ _ _ _ _ _ _ HS).
Qed.

(** X8. Every frontier written into a trace lists only nodes of the visited
    snapshot of the same record, and the frontiers recorded by
    depth_first_search list no node twice. *)
Theorem recorded_frontiers s g start goal path steps lvl :
  returns s g start goal (path, steps, lvl) →
  ∀ i r, steps !! i = Some r →
    (∀ x, x ∈ Frontier r → x ∈ Visited r) ∧
    (s = DFS → NoDup (Frontier r)).
Proof.
  intros Hret.
  destruct (returns_result _ _ _ _ _ _ _ Hret)
    as (k & st & Hk & Hinv & -> & -> & _).
  destruct (trace_records _ _ _ _ _ _ Hk) as [H0 Hrec].
  intros [|i] r Hr.
  - rewrite H0 in Hr. simpl in Hr. simplify_eq. simpl. split.
    + intros x. set_solver.
    + intros _. apply NoDup_singleton.
  - destruct (Hrec i r Hr) as (_ & _ & ? & _ & ?). done.
Qed.

(** X9. The keys of the returned level map are the visited snapshot of the
    last trace record, and each level is the number of edges of some path
    from the start node to its node. *)
Theorem level_map_keys s g start goal path steps lvl :
  returns s g start goal (path, steps, lvl) →
  (∃ r, last steps = Some r ∧ Visited r = dom lvl) ∧
  (∀ v l, lvl !! v = Some l →
     ∃ p, path_from_to g start v p ∧ length p = S l).
Proof.
  intros Hret.
  destruct (returns_result _ _ _ _ _ _ _ Hret)
    as (k & st & Hk & Hinv & -> & -> & _).
  split.
  - rewrite (inv_dom_level _ _ _ Hinv). apply (inv_trace_last _ _ _ Hinv).
  - intros v l Hv. apply reach_in_path. by apply (inv_reach _ _ _ Hinv).
Qed.

Lemma bfs_trace_levels g start goal k : ∀ st,
  state_after BFS g start goal k = Some (Next, st) →
  (∀ i j ri rj, i ≤ j → process_steps st !! i = Some ri →
     process_steps st !! j = Some rj → Level ri ≤ Level rj) ∧
  (∀ r x, last (process_steps st) = Some r → x ∈ frontier st →
     Level r ≤ lv st x).
Proof.
  induction k as [|k IH]; intros st' Hk.
  - unfold state_after in Hk. simpl in Hk. simplify_eq. simpl. split.
    + intros [|i] [|j] ri rj Hle Hi Hj; simplify_eq/=. lia.
    + intros r x [= <-] _. simpl. lia.
  - destruct (state_after_step _ _ _ _ _ _ _ Hk)
      as (st & Hst & Hinv & cur & queue & lc & new & Htk & Hne & Hlc & _ & Hexp).
    simpl in Htk.
    destruct (IH st Hst) as [Hmono Hlast].
    pose proof (bfs_after_inv _ _ _ _ _ Hst) as Hb.
    destruct Hexp as [Hnd Hnew Hfr Hvis Hpar Hlev Hps Heo Hcn].
    assert (lv st cur = lc) as Hlvc by (unfold lv; by rewrite Hlc).
    destruct (inv_trace_last _ _ _ Hinv) as (rl & Hrl & _).
    assert (Level rl ≤ lc) as Hrlc.
    { rewrite <- Hlvc. apply Hlast; [done|]. rewrite Htk. set_solver. }
    rewrite Hps. split.
    + intros i j ri rj Hle Hi Hj.
      apply lookup_app_Some in Hj as [Hj|[Hge Hj]].
      * rewrite lookup_app_l in Hi by (apply lookup_lt_Some in Hj; lia). eauto.
      * apply list_lookup_singleton_Some in Hj as [_ <-]. simpl.
        apply lookup_app_Some in Hi as [Hi|[_ Hi]].
        -- transitivity (Level rl); [|done].
           rewrite last_lookup in Hrl.
           apply (Hmono i (pred (length (process_steps st))) ri rl); [|done..].
           apply lookup_lt_Some in Hi. lia.
        -- apply list_lookup_singleton_Some in Hi as [_ <-]. done.
    + intros r x. rewrite last_snoc. intros [= <-]. simpl.
      rewrite Hfr, elem_of_app. intros [Hx|Hx].
      * unfold lv. rewrite Hlev, decide_False.
        2: { rewrite Hnew. intros [_ []]. apply (inv_frontier _ _ _ Hinv).
             rewrite Htk. set_solver. }
        pose proof (bfs_sorted _ _ _ Hb) as Hs. rewrite Htk in Hs.
        apply StronglySorted_inv in Hs as [_ Hall].
        rewrite Forall_forall in Hall. rewrite <- Hlvc. by apply Hall.
      * unfold lv. rewrite Hlev, decide_True by done. simpl. lia.
Qed.

(** X10. breadth_first_search expands level by level: along its trace the
    level column never goes down. *)
Theorem bfs_trace_levels_ascend g start goal path steps lvl :
  returns BFS g start goal (path, steps, lvl) →
  ∀ i j ri rj, i ≤ j → steps !! i = Some ri → steps !! j = Some rj →
               Level ri ≤ Level rj.
Proof.
  intros Hret.
  destruct (returns_result _ _ _ _ _ _ _ Hret)
    as (k & st & Hk & Hinv & -> & -> & _).
  apply (bfs_trace_levels _ _ _ _ _ Hk).
Qed.

(** ** The frontier *)

(** X11. The frontier never holds a node twice, also when successor lists
    repeat a node, and no node in it has been expanded yet. *)
Theorem frontier_distinct_unexpanded s g start goal k fl st :
  state_after s g start goal k = Some (fl, st) →
  NoDup (frontier st) ∧
  ∀ x i, x ∈ frontier st → expanded s g start goal i = Some x → k < i.
Proof.
  intros Hk. pose proof (turn_of_step s g start goal) as Hturn.
  destruct fl.
  - assert (inv g start st) as Hinv by eauto using state_after_inv.
    split; [apply (inv_nodup _ _ _ Hinv)|]. intros x i Hx Hi.
    destruct (decide (k < i)) as [|Hge]; [done|].
    by destruct (expansion_done g start goal _ Hturn k st i x Hk Hi ltac:(lia)).
  - destruct k as [|k]; [done|].
    destruct (state_after_step _ _ _ _ _ _ _ Hk)
      as (st0 & Hst0 & Hinv & rest & Htk & ->). simpl.
    pose proof (inv_nodup _ _ _ Hinv) as Hnd.
    rewrite (takes_Permutation _ _ _ _ Htk) in Hnd.
    apply NoDup_cons in Hnd as [Hgr Hnd]. split; [done|].
    intros x i Hx Hi. destruct (decide (S k < i)) as [|Hge]; [done|].
    destruct (decide (i = S k)) as [->|].
    + rewrite (expanded_S _ _ _ _ _ _ _ Hk) in Hi by done. simpl in Hi.
      congruence.
    + destruct (expansion_done g start goal _ Hturn k st0 i x Hst0 Hi
        ltac:(lia)) as [_ []].
      rewrite (takes_Permutation _ _ _ _ Htk). set_solver.
  - destruct k as [|k]; [done|].
    destruct (state_after_step _ _ _ _ _ _ _ Hk) as (st0 & _ & _ & Hfr & ->).
    rewrite Hfr. split; [constructor|]. intros x i Hx. set_solver.
Qed.

(** ** Start nodes without successors *)

(** X12. A start node that is not a key of the graph, or has no
    successors, and is not the goal: either search expands it, records that
    one step with an empty frontier, and returns the empty path and the
    level map holding only the start node. *)
Theorem start_without_successors s g start goal fuel :
  graph_get g start = [] →
  start ≠ goal →
  search s (S (S fuel)) g start goal =
    Returned ([],
              [ {| Step := 0; Expansion := "Start"; Level := 0;
                   Frontier := [start]; Visited := {[start]} |};
                {| Step := 1; Expansion := start; Level := 0;
                   Frontier := []; Visited := {[start]} |} ],
              {[start := 0]}).
Proof.
  intros Hg Hne. rewrite search_unfold.
  assert (turn_of s g goal (initial start) = Returned (Next,
    {| frontier := []; visited := {[start]};
       parent_map := {[start := None]};
       process_steps :=
         [ {| Step := 0; Expansion := "Start"; Level := 0;
              Frontier := [start]; Visited := {[start]} |};
           {| Step := 1; Expansion := start; Level := 0;
              Frontier := []; Visited := {[start]} |} ];
       level := {[start := 0]}; expansion_order := 1;
       current_node := Some start |})) as Ht.
  { destruct s; simpl.
    - unfold bfs_turn. simpl. rewrite decide_False by done. rewrite Hg. simpl.
      unfold record_step, getitem. simpl. by rewrite lookup_singleton_eq.
    - unfold dfs_turn. simpl. rewrite decide_False by done. rewrite Hg. simpl.
      unfold record_step, getitem. simpl. by rewrite lookup_singleton_eq. }
  simpl. rewrite Ht. simpl.
  assert (∀ st, frontier st = [] → turn_of s g goal st = Returned (Stop, st))
    as Hstop.
  { intros st Hfr. destruct s; simpl.
    - unfold bfs_turn. by rewrite Hfr.
    - unfold dfs_turn. by rewrite Hfr. }
  rewrite Hstop by done. simpl. unfold finish. simpl.
  by rewrite decide_False.
Qed.

(** ** What [main] shows *)

(** X13. Showing the result of either search never fails with a KeyError on
    [level[goal_node]]: with a path, the goal has a level, which is the
    number of edges of that path; and the error notice is shown exactly
    when the goal cannot be reached. *)
Theorem show_result_safe s g start goal path steps lvl :
  returns s g start goal (path, steps, lvl) →
  ∃ m, show_result goal (path, steps, lvl) = Returned m ∧
       (m = PathNotFound ↔ ¬ reachable g start goal) ∧
       ∀ joined l, m = PathFound joined l →
         joined = String.concat " -> " path ∧ S l = length path.
Proof.
  intros Hret.
  destruct (returns_result _ _ _ _ _ _ _ Hret)
    as (k & st & Hk & Hinv & -> & -> & [(Hfr & -> & _)|(Hg & Hp & Hl & _)]).
  - exists PathNotFound. split_and!; try done.
    split; [|done]. intros _. by eapply exhausted_unreachable.
  - destruct path as [|a path]; [by destruct Hp as [? _]|].
    exists (PathFound (String.concat " -> " (a :: path)) (length path)).
    split_and!.
    + unfold show_result, getitem. rewrite Hl. done.
    + split; [done|]. intros []. by eapply frontier_reachable.
    + intros joined l [= <- <-]. done.
Qed.


(** ** Discoveries are final *)

Lemma turn_keeps s g start goal k fl st fl' st' :
  state_after s g start goal k = Some (fl, st) →
  state_after s g start goal (S k) = Some (fl', st') →
  visited st ⊆ visited st' ∧
  (∀ v l, level st !! v = Some l → level st' !! v = Some l) ∧
  (∀ v p, parent_map st !! v = Some p → parent_map st' !! v = Some p).
Proof.
  intros Hk HS.
  destruct (state_after_step _ _ _ _ _ _ _ HS) as (st0 & Hst0 & Hinv & Hdoes).
  assert (fl = Next ∧ st0 = st) as [-> ->].
  { unfold state_after in *. rewrite Hk in Hst0. by simplify_eq. }
  destruct fl'; simpl in Hdoes.
  - destruct Hdoes as (cur & rest & lc & new & _ & _ & _ & _ & Hexp).
    destruct Hexp as [Hnd Hnew Hfr Hvis Hpar Hlev Hps Heo Hcn].
    split_and!.
    + rewrite Hvis. set_solver.
    + intros v l Hv. rewrite Hlev, decide_False; [done|].
      rewrite Hnew. intros [_ []]. by eapply inv_level_visited.
    + intros v p Hv. rewrite Hpar, decide_False; [done|].
      rewrite Hnew. intros [_ []]. rewrite <- (inv_dom_parent _ _ _ Hinv).
      apply elem_of_dom. eauto.
  - by destruct Hdoes as (rest & _ & ->).
  - by destruct Hdoes as (_ & ->).
Qed.

(** X14. What a search has discovered stays as it is: from any turn to any
    later turn the visited set only grows, and no entry of the level map or
    of the parent map is ever changed or removed. *)
Theorem discoveries_are_final s g start goal k k' fl st fl' st' :
  k ≤ k' →
  state_after s g start goal k = Some (fl, st) →
  state_after s g start goal k' = Some (fl', st') →
  visited st ⊆ visited st' ∧
  (∀ v l, level st !! v = Some l → level st' !! v = Some l) ∧
  (∀ v p, parent_map st !! v = Some p → parent_map st' !! v = Some p).
Proof.
  intros Hle Hk. revert fl' st'.
  induction Hle as [|k' Hle IH]; intros fl' st' Hk'.
  - assert (st' = st) as -> by congruence. by split_and!.
  - destruct (after_prev _ _ _ _ Hk') as [st0 Hst0].
    destruct (IH _ _ Hst0) as (Hv & Hl & Hp).
    destruct (turn_keeps _ _ _ _ _ _ _ _ _ Hst0 Hk') as (Hv' & Hl' & Hp').
    split_and!; [set_solver|eauto..].
Qed.

(** X15. The frontier written into the trace by a turn names exactly the
    nodes that wait in the frontier after that turn (breadth_first_search
    may name a node twice, but leaves none out and adds none). *)
Theorem recorded_frontier_nodes s g start goal k st' :
  state_after s g start goal (S k) = Some (Next, st') →
  ∃ r, last (process_steps st') = Some r ∧
       Step r = S k ∧
       ∀ x, x ∈ Frontier r ↔ x ∈ frontier st'.
Proof.
  intros HS. pose proof (turn_of_step s g start goal) as Hturn.
  destruct (state_after_step _ _ _ _ _ _ _ HS)
    as (st & Hst & Hinv & cur & rest & lc & new & _ & _ & _ & _ & Hexp).
  destruct (expanded_list g start goal _ Hturn k st Hst) as [Heo _].
  destruct Hexp as [Hnd Hnew Hfr Hvis Hpar Hlev Hps Heo' Hcn].
  eexists. rewrite Hps, last_snoc. split; [done|]. simpl.
  split; [lia|]. intros x. rewrite Hfr. destruct s; simpl.
  - rewrite (elem_of_app rest (sorted _)), elem_of_sorted, !elem_of_app. tauto.
  - apply elem_of_reverse.
Qed.

(** ** The further properties at work on the sample graph *)

Lemma returns_match_both fuel g start goal
    (P Q : list string → list process_step → gmap string nat → Prop) :
  match search BFS fuel g start goal with
  | Returned (path, steps, lvl) => P path steps lvl
  | _ => False
  end →
  match search DFS fuel g start goal with
  | Returned (path, steps, lvl) => Q path steps lvl
  | _ => False
  end →
  ∃ path1 steps1 lvl1 path2 steps2 lvl2,
    returns BFS g start goal (path1, steps1, lvl1) ∧
    returns DFS g start goal (path2, steps2, lvl2) ∧
    P path1 steps1 lvl1 ∧ Q path2 steps2 lvl2.
Proof.
  intros H1 H2.
  destruct (returns_match BFS fuel g start goal P H1)
    as (p1 & s1 & l1 & Hr1 & HP).
  destruct (returns_match DFS fuel g start goal Q H2)
    as (p2 & s2 & l2 & Hr2 & HQ).
  by exists p1, s1, l1, p2, s2, l2.
Qed.

Lemma path_found_iff_reachable_witness :
  (∃ path steps lvl,
     returns BFS GRAPH "A" "F" (path, steps, lvl) ∧
     (∀ r, returns BFS GRAPH "A" "F" r → r = (path, steps, lvl)) ∧
     (path ≠ [] ↔ reachable GRAPH "A" "F")) ∧
  (∃ path steps lvl,
     returns DFS GRAPH "A" "F" (path, steps, lvl) ∧
     (∀ r, returns DFS GRAPH "A" "F" r → r = (path, steps, lvl)) ∧
     (path ≠ [] ↔ reachable GRAPH "A" "F")) ∧
  (∃ path steps lvl,
     returns BFS GRAPH "E" "A" (path, steps, lvl) ∧
     (∀ r, returns BFS GRAPH "E" "A" r → r = (path, steps, lvl)) ∧
     (path ≠ [] ↔ reachable GRAPH "E" "A")) ∧
  (∃ path steps lvl,
     returns DFS GRAPH "E" "A" (path, steps, lvl) ∧
     (∀ r, returns DFS GRAPH "E" "A" r → r = (path, steps, lvl)) ∧
     (path ≠ [] ↔ reachable GRAPH "E" "A")) ∧
  (∃ steps lvl,
     returns DFS GRAPH "A" "F" (["A"; "B"; "E"; "H"; "F"], steps, lvl)) ∧
  (∃ steps lvl, returns DFS GRAPH "E" "A" ([], steps, lvl)).
Proof.
  split; [exact (path_found_iff_reachable BFS GRAPH "A" "F")|].
  split; [exact (path_found_iff_reachable DFS GRAPH "A" "F")|].
  split; [exact (path_found_iff_reachable BFS GRAPH "E" "A")|].
  split; [exact (path_found_iff_reachable DFS GRAPH "E" "A")|].
  split.
  - destruct (returns_match DFS 9 GRAPH "A" "F"
      (λ path _ _, path = ["A"; "B"; "E"; "H"; "F"]))
      as (path & steps & lvl & Hret & ->).
    { vm_compute. reflexivity. }
    exists steps, lvl. exact Hret.
  - destruct (returns_match DFS 9 GRAPH "E" "A" (λ path _ _, path = []))
      as (path & steps & lvl & Hret & ->).
    { vm_compute. reflexivity. }
    exists steps, lvl. exact Hret.
Defined.

Lemma path_levels_witness :
  ∃ path steps lvl,
    returns DFS GRAPH "A" "F" (path, steps, lvl) ∧
    (∀ i v, path !! i = Some v → lvl !! v = Some i) ∧
    NoDup path ∧
    (path ≠ [] → lvl !! "F" = Some (length path - 1)).
Proof.
  destruct (returns_match DFS 9 GRAPH "A" "F" (λ _ _ _, True))
    as (path & steps & lvl & Hret & _).
  { vm_compute. exact I. }
  exists path, steps, lvl. split; [exact Hret|].
  exact (path_levels DFS GRAPH "A" "F" path steps lvl Hret).
Defined.

Lemma bfs_path_shortest_witness :
  ∃ path steps lvl,
    returns BFS GRAPH "A" "F" (path, steps, lvl) ∧ path ≠ [] ∧
    path_from_to GRAPH "A" "F" path ∧
    ∀ p, path_from_to GRAPH "A" "F" p → length path ≤ length p.
Proof.
  destruct (returns_match BFS 9 GRAPH "A" "F" (λ path _ _, path ≠ []))
    as (path & steps & lvl & Hret & Hne).
  { vm_compute. intros Hnil. discriminate Hnil. }
  exists path, steps, lvl. split; [exact Hret|]. split; [exact Hne|].
  exact (bfs_path_shortest GRAPH "A" "F" path steps lvl Hret Hne).
Defined.

Lemma dfs_not_shorter_witness :
  ∃ path1 steps1 lvl1 path2 steps2 lvl2,
    returns BFS GRAPH "A" "F" (path1, steps1, lvl1) ∧
    returns DFS GRAPH "A" "F" (path2, steps2, lvl2) ∧
    (∀ v a b, lvl1 !! v = Some a → lvl2 !! v = Some b → a ≤ b) ∧
    length path1 ≤ length path2.
Proof.
  destruct (returns_match_both 9 GRAPH "A" "F" (λ _ _ _, True) (λ _ _ _, True))
    as (p1 & s1 & l1 & p2 & s2 & l2 & Hr1 & Hr2 & _).
  { vm_compute. exact I. }
  { vm_compute. exact I. }
  exists p1, s1, l1, p2, s2, l2. split; [exact Hr1|]. split; [exact Hr2|].
  exact (dfs_not_shorter GRAPH "A" "F" p1 s1 l1 p2 s2 l2 Hr1 Hr2).
Defined.

Lemma trace_tells_expansions_witness :
  ∃ path steps lvl,
    returns BFS GRAPH "A" "F" (path, steps, lvl) ∧
    ∀ i r, steps !! i = Some r →
      Step r = i ∧
      (1 ≤ i → expanded BFS GRAPH "A" "F" i = Some (Expansion r) ∧
               lvl !! Expansion r = Some (Level r)).
Proof.
  destruct (returns_match BFS 9 GRAPH "A" "F" (λ _ _ _, True))
    as (path & steps & lvl & Hret & _).
  { vm_compute. exact I. }
  exists path, steps, lvl. split; [exact Hret|].
  exact (proj2 (trace_tells_expansions BFS GRAPH "A" "F" path steps lvl Hret)).
Defined.

Lemma goal_turn_not_recorded_witness :
  ∃ path steps lvl,
    returns DFS GRAPH "A" "F" (path, steps, lvl) ∧
    (∀ i r, steps !! S i = Some r → Expansion r ≠ "F") ∧
    (path ≠ [] → expanded DFS GRAPH "A" "F" (length steps) = Some "F").
Proof.
  destruct (returns_match DFS 9 GRAPH "A" "F" (λ _ _ _, True))
    as (path & steps & lvl & Hret & _).
  { vm_compute. exact I. }
  exists path, steps, lvl. split; [exact Hret|].
  exact (goal_turn_not_recorded DFS GRAPH "A" "F" path steps lvl Hret).
Defined.

Lemma recorded_frontiers_witness :
  ∃ path steps lvl,
    returns DFS GRAPH "A" "F" (path, steps, lvl) ∧
    ∀ i r, steps !! i = Some r →
      (∀ x, x ∈ Frontier r → x ∈ Visited r) ∧
      (DFS = DFS → NoDup (Frontier r)).
Proof.
  destruct (returns_match DFS 9 GRAPH "A" "F" (λ _ _ _, True))
    as (path & steps & lvl & Hret & _).
  { vm_compute. exact I. }
  exists path, steps, lvl. split; [exact Hret|].
  exact (recorded_frontiers DFS GRAPH "A" "F" path steps lvl Hret).
Defined.

Lemma level_map_keys_witness :
  ∃ path steps lvl,
    returns DFS GRAPH "A" "F" (path, steps, lvl) ∧
    (∃ r, last steps = Some r ∧ Visited r = dom lvl) ∧
    (∀ v l, lvl !! v = Some l →
       ∃ p, path_from_to GRAPH "A" v p ∧ length p = S l).
Proof.
  destruct (returns_match DFS 9 GRAPH "A" "F" (λ _ _ _, True))
    as (path & steps & lvl & Hret & _).
  { vm_compute. exact I. }
  exists path, steps, lvl. split; [exact Hret|].
  exact (level_map_keys DFS GRAPH "A" "F" path steps lvl Hret).
Defined.

Lemma bfs_trace_levels_ascend_witness :
  ∃ path steps lvl,
    returns BFS GRAPH "A" "F" (path, steps, lvl) ∧
    ∀ i j ri rj, i ≤ j → steps !! i = Some ri → steps !! j = Some rj →
                 Level ri ≤ Level rj.
Proof.
  destruct (returns_match BFS 9 GRAPH "A" "F" (λ _ _ _, True))
    as (path & steps & lvl & Hret & _).
  { vm_compute. exact I. }
  exists path, steps, lvl. split; [exact Hret|].
  exact (bfs_trace_levels_ascend GRAPH "A" "F" path steps lvl Hret).
Defined.

Lemma frontier_distinct_unexpanded_witness :
  ∃ fl st,
    state_after BFS GRAPH "A" "F" 3 = Some (fl, st) ∧
    NoDup (frontier st) ∧
    ∀ x i, x ∈ frontier st → expanded BFS GRAPH "A" "F" i = Some x → 3 < i.
Proof.
  destruct (state_match (state_after BFS GRAPH "A" "F" 3) (λ _ _, True))
    as (fl & st & Hst & _).
  { vm_compute. exact I. }
  exists fl, st. split; [exact Hst|].
  exact (frontier_distinct_unexpanded BFS GRAPH "A" "F" 3 fl st Hst).
Defined.

Lemma start_without_successors_witness :
  graph_get GRAPH "F" = [] ∧ "F" ≠ "A" ∧
  search DFS 2 GRAPH "F" "A" =
    Returned ([],
              [ {| Step := 0; Expansion := "Start"; Level := 0;
                   Frontier := ["F"]; Visited := {["F"]} |};
                {| Step := 1; Expansion := "F"; Level := 0;
                   Frontier := []; Visited := {["F"]} |} ],
              {["F" := 0]}).
Proof.
  assert (graph_get GRAPH "F" = []) as Hg by (vm_compute; reflexivity).
  assert ("F" ≠ "A") as Hne by (intros [=]).
  split; [exact Hg|]. split; [exact Hne|].
  exact (start_without_successors DFS GRAPH "F" "A" 0 Hg Hne).
Defined.

Lemma show_result_safe_witness :
  ∃ path steps lvl,
    returns BFS GRAPH "A" "F" (path, steps, lvl) ∧
    ∃ m, show_result "F" (path, steps, lvl) = Returned m ∧
         (m = PathNotFound ↔ ¬ reachable GRAPH "A" "F") ∧
         ∀ joined l, m = PathFound joined l →
           joined = String.concat " -> " path ∧ S l = length path.
Proof.
  destruct (returns_match BFS 9 GRAPH "A" "F" (λ _ _ _, True))
    as (path & steps & lvl & Hret & _).
  { vm_compute. exact I. }
  exists path, steps, lvl. split; [exact Hret|].
  exact (show_result_safe BFS GRAPH "A" "F" path steps lvl Hret).
Defined.

Lemma discoveries_are_final_witness :
  ∃ fl st fl' st',
    1 ≤ 3 ∧
    state_after DFS GRAPH "A" "F" 1 = Some (fl, st) ∧
    state_after DFS GRAPH "A" "F" 3 = Some (fl', st') ∧
    visited st ⊆ visited st' ∧
    (∀ v l, level st !! v = Some l → level st' !! v = Some l) ∧
    (∀ v p, parent_map st !! v = Some p → parent_map st' !! v = Some p).
Proof.
  destruct (state_match (state_after DFS GRAPH "A" "F" 1) (λ _ _, True))
    as (fl & st & Hst & _).
  { vm_compute. exact I. }
  destruct (state_match (state_after DFS GRAPH "A" "F" 3) (λ _ _, True))
    as (fl' & st' & Hst' & _).
  { vm_compute. exact I. }
  assert (1 ≤ 3) as Hle by (repeat constructor).
  exists fl, st, fl', st'. split; [exact Hle|]. split; [exact Hst|].
  split; [exact Hst'|].
  exact (discoveries_are_final DFS GRAPH "A" "F" 1 3 fl st fl' st' Hle Hst Hst').
Defined.

Lemma recorded_frontier_nodes_witness :
  ∃ st',
    state_after BFS GRAPH "A" "F" 2 = Some (Next, st') ∧
    ∃ r, last (process_steps st') = Some r ∧ Step r = 2 ∧
         ∀ x, x ∈ Frontier r ↔ x ∈ frontier st'.
Proof.
  destruct (state_match (state_after BFS GRAPH "A" "F" 2) (λ fl _, fl = Next))
    as (fl & st' & Hst & ->).
  { vm_compute. reflexivity. }
  exists st'. split; [exact Hst|].
  exact (recorded_frontier_nodes BFS GRAPH "A" "F" 1 st' Hst).
Defined.
